(** * A SoundFont 2 decoder: chunk framing, sample data, hydra and info lists

    The Go package under verification decodes a RIFF container into a
    SoundFont bank.  This development embeds its decoders as Rocq functions
    over byte lists and settles the properties of its specification.

    - [Chunk]   : chunk.go     (chunk framing: [parse], [expect], [newReader])
    - [Samples] : samples.go   ([ReadSoundFontSamples])
    - [Hydra]   : the pdta decoder ([ReadSoundFontHydra])
    - [Info]    : the INFO decoder ([ReadSoundFontInfo])
    - [Bank]    : the container ([ReadSoundFont])
    - [SfSampleType] : the name of a sample type ([String])

    Conventions.  A Go [byte] is a [Byte.byte]; a fixed-width integer is a
    [Z] with its wrap-around written out; an [io.Reader] is the list of
    bytes not yet consumed; a function returning [(T, error)] returns
    [error + T].  The progress lines the decoders print with [fmt.Println]
    are not part of their results and are left out. *)

From Stdlib Require Import ZArith Lia.
From Stdlib Require Import Init.Byte.
From Stdlib Require Strings.Byte.
From Stdlib Require Import Strings.String.
From Stdlib Require DecimalString.
From stdpp Require Import gmap strings list.
From Equations Require Import Equations.

Local Open Scope Z_scope.

(** ** Bytes and fixed-width integers *)

#[global] Instance byte_eq_dec : EqDecision byte := Byte.byte_eq_dec.
#[global] Instance byte_countable : Countable byte :=
  inj_countable Byte.to_N Byte.of_N Byte.of_to_N.
#[global] Instance byte_inhabited : Inhabited byte := populate x00.

(** [uint16(b)], [uint32(b)], [int16(b)] of a byte [b]: its value. *)
Definition byte_to_Z (b : byte) : Z := Z.of_N (Byte.to_N b).

(** [byte(v)]: the low eight bits of [v]. *)
Definition byte_of_Z (v : Z) : byte :=
  default x00 (Byte.of_N (Z.to_N (v mod 256))).

(** Conversion to a signed type of [w] bits: two's complement wrap-around. *)
Definition to_signed (w : Z) (v : Z) : Z :=
  (v + 2 ^ (w - 1)) mod 2 ^ w - 2 ^ (w - 1).

(** Conversion to an unsigned type of [w] bits. *)
Definition to_unsigned (w : Z) (v : Z) : Z := v mod 2 ^ w.

Definition int8 (v : Z) : Z := to_signed 8 v.
Definition int16 (v : Z) : Z := to_signed 16 v.
Definition uint16 (v : Z) : Z := to_unsigned 16 v.

(** [x << n] at types [int16] and [uint16]. *)
Definition shl_int16 (x : Z) (n : Z) : Z := int16 (Z.shiftl x n).
Definition shl_uint16 (x : Z) (n : Z) : Z := uint16 (Z.shiftl x n).

(** [binary.LittleEndian.Uint16] and [Uint32] on the bytes of a buffer. *)
Definition le_uint16 (b0 b1 : byte) : Z :=
  Z.lor (byte_to_Z b0) (Z.shiftl (byte_to_Z b1) 8).

Definition le_uint32 (b0 b1 b2 b3 : byte) : Z :=
  Z.lor (Z.lor (Z.lor (byte_to_Z b0) (Z.shiftl (byte_to_Z b1) 8))
               (Z.shiftl (byte_to_Z b2) 16))
        (Z.shiftl (byte_to_Z b3) 24).

(** A chunk id, [[4]byte]. *)
Definition tag : Type := byte * byte * byte * byte.

Definition tag_bytes (t : tag) : list byte :=
  let '(a, b, c, d) := t in [a; b; c; d].

(** ** Errors *)

(** The errors the package returns.  [EOF] and [ErrUnexpectedEOF] are the
    two sentinels of package [io]; the others stand for the [fmt.Errorf]
    calls, with the formatted arguments kept as arguments.  [Panic] is the
    run-time panic of an index out of range. *)
Inductive error : Type :=
| EOF
| ErrUnexpectedEOF
| ErrChunkId (want got : tag)              (* expected chunk id %v, got %v *)
| ErrExpected (what : string)              (* expected INFO *)
| ErrInvalidSize (what : string) (n : Z)   (* invalid <what> size %d *)
| ErrMissingChunk (ck : tag)               (* missing chunk %v *)
| ErrDuplicateChunk (ck : tag)             (* duplicate chunk %v *)
| Errorf (msg : string)                    (* a fixed message *)
| Panic.

#[global] Instance error_eq_dec : EqDecision error.
Proof. solve_decision. Defined.

Abbreviation result := (sum error).

#[global] Instance result_ret : MRet result := λ A x, inr x.
#[global] Instance result_bind : MBind result :=
  λ A B f m, match m with inl e => inl e | inr x => f x end.

(** ** Readers *)

(** An [io.Reader] over a finite input: the bytes still to be read. *)
Definition reader : Type := list byte.

(** [io.ReadFull(r, buf)] with [len(buf) = n]: exactly [n] bytes, [EOF] when
    nothing could be read, [ErrUnexpectedEOF] when the input ends after some
    but not all of them.  A zero-length read succeeds without reading. *)
Definition ReadFull (n : nat) (r : reader) : result (list byte * reader) :=
  match n with
  | O => inr ([], r)
  | S _ =>
      if bool_decide (r = []) then inl EOF
      else if bool_decide (length r < n)%nat then inl ErrUnexpectedEOF
      else inr (take n r, drop n r)
  end.

(** [data[i]]: panics out of range. *)
Definition index (data : list byte) (i : nat) : result byte :=
  match data !! i with
  | Some b => inr b
  | None => inl Panic
  end.

(** [s := make([]T, n); for i := 0; i < len(s); i++ { s[i] = f(i) }],
    where [f i] may panic. *)
Definition fill {A} (n : nat) (f : nat → result A) : result (list A) :=
  mapM f (seq 0 n).

(** [Expect] reads [len(b)] bytes from [r] and checks that they match [b]. *)
Definition Expect (r : reader) (b : list byte) : result (bool * reader) :=
  '(buf, r') ← ReadFull (length b) r;
  inr (bool_decide (buf = b), r').

(** ** chunk.go *)

Module Chunk.

Record chunk : Type := mkChunk {
  id : tag;
  size : Z;
  data : list byte
}.

(** [io.ReadFull(r, ck.id[:])]: [ReadFull] into an array of four bytes. *)
Definition read_id (r : reader) : result (tag * reader) :=
  match r with
  | b0 :: b1 :: b2 :: b3 :: r' => inr ((b0, b1, b2, b3), r')
  | [] => inl EOF
  | _ => inl ErrUnexpectedEOF
  end.

(** [binary.Read(r, binary.LittleEndian, &ck.size)]: [ReadFull] of four
    bytes, then [LittleEndian.Uint32]. *)
Definition read_uint32 (r : reader) : result (Z * reader) :=
  match r with
  | b0 :: b1 :: b2 :: b3 :: r' => inr (le_uint32 b0 b1 b2 b3, r')
  | [] => inl EOF
  | _ => inl ErrUnexpectedEOF
  end.

(** [parse] reads a chunk from the reader. *)
Definition parse (r : reader) : result (chunk * reader) :=
  '(ck_id, r1) ← read_id r;
  '(ck_size, r2) ← read_uint32 r1;
  '(ck_data, r3) ← ReadFull (Z.to_nat ck_size) r2;
  inr (mkChunk ck_id ck_size ck_data, r3).

(** [expect] reads a chunk and checks its id. *)
Definition expect (r : reader) (want : tag) : result (chunk * reader) :=
  '(ch, r') ← parse r;
  if bool_decide (id ch ≠ want) then inl (ErrChunkId want (id ch))
  else inr (ch, r').

(** [newReader] returns a new reader of the chunk's data. *)
Definition newReader (ch : chunk) : reader := data ch.

(** The loop shared by the two list decoders,
    [for { var chunk chunk; if err := chunk.parse(r); err != nil
           { if err == io.EOF { break }; return nil, err }; body }],
    where [body] either continues with a new state or returns an error. *)
Definition inspect {A : Type} (x : A) : { y : A | x = y } := exist _ x eq_refl.

Lemma read_id_length r t r' :
  read_id r = inr (t, r') → (length r' < length r)%nat.
Proof.
  destruct r as [|? [|? [|? [|? ?]]]]; simpl; intros [=]; subst; simpl; lia.
Qed.

Lemma read_uint32_length r n r' :
  read_uint32 r = inr (n, r') → (length r' < length r)%nat.
Proof.
  destruct r as [|? [|? [|? [|? ?]]]]; simpl; intros [=]; subst; simpl; lia.
Qed.

Lemma ReadFull_length n r b r' :
  ReadFull n r = inr (b, r') → (length r' ≤ length r)%nat.
Proof.
  unfold ReadFull. destruct n; [intros [=]; subst; lia|].
  repeat case_bool_decide; intros [=]; subst.
  rewrite length_drop. lia.
Qed.

Lemma parse_length r ck r' :
  parse r = inr (ck, r') → (length r' < length r)%nat.
Proof.
  unfold parse. destruct (read_id r) as [|[t r1]] eqn:E1; simpl; [done|].
  destruct (read_uint32 r1) as [|[n r2]] eqn:E2; simpl; [done|].
  destruct (ReadFull _ r2) as [|[b r3]] eqn:E3; simpl; [done|].
  intros [=]; subst.
  apply read_id_length in E1. apply read_uint32_length in E2.
  apply ReadFull_length in E3. lia.
Qed.

Equations? chunk_loop {S : Type} (body : chunk → S → result S)
    (r : reader) (s : S) : result S by wf (length r) lt :=
  chunk_loop body r s with inspect (parse r) := {
    | exist _ (inr (ck, r')) Hparse with body ck s := {
        | inr s' => chunk_loop body r' s'
        | inl err => inl err };
    | exist _ (inl EOF) _ => inr s;
    | exist _ (inl err) _ => inl err }.
Proof. eapply parse_length; eassumption. Qed.

End Chunk.

(** ** samples.go *)

Module Samples.
Import Chunk.

Definition tag_smpl : tag := ("s", "m", "p", "l")%byte.
Definition tag_sm24 : tag := ("s", "m", "2", "4")%byte.

Record SoundFontSamples : Type := mkSamples {
  SamplesHigher : list Z;   (* []int16 *)
  SamplesLower : list Z     (* []int8 *)
}.

(** The right-hand side of the assignment to [sound.SamplesHigher[i]]. *)
Definition sample_higher (data : list byte) (i : nat) : result Z :=
  hi ← index data (i * 2 + 1);
  lo ← index data (i * 2);
  mret (Z.lor (shl_int16 (int16 (byte_to_Z hi)) 8)
              (shl_int16 (int16 (byte_to_Z lo)) 8)).

(** The right-hand side of the assignment to [sound.SamplesLower[i]]. *)
Definition sample_lower (data : list byte) (i : nat) : result Z :=
  b ← index data i;
  mret (int8 (byte_to_Z b)).

Definition ReadSoundFontSamples (r : reader) : result SoundFontSamples :=
  '(smplHeader, r1) ← expect r tag_smpl;
  higher ← fill (Z.to_nat (size smplHeader / 2)) (sample_higher (data smplHeader));
  match expect r1 tag_sm24 with
  | inl err =>
      if bool_decide (err = EOF) then inr (mkSamples higher [])
      else inl err
  | inr (sm24Header, _) =>
      lower ← fill (Z.to_nat (size sm24Header)) (sample_lower (data sm24Header));
      inr (mkSamples higher lower)
  end.

End Samples.

(** ** The pdta list: presets, instruments and sample headers *)

Module Hydra.
Import Chunk.

Record PresetHeader : Type := mkPresetHeader {
  PresetName : list byte;   (* [20]byte *)
  Preset : Z;               (* uint16 *)
  Bank : Z;                 (* uint16 *)
  PresetBagNdx : Z;         (* uint16 *)
  Library : Z;              (* uint32 *)
  Genre : Z;                (* uint32 *)
  Morphology : Z            (* uint32 *)
}.

Record PBagRecord : Type := mkPBag {
  GenIndex : Z;             (* uint16 *)
  ModIndex : Z              (* uint16 *)
}.

Record Modulator : Type := mkModulator {
  ModSrcOper : Z;           (* SFModulator, uint16 *)
  ModDestOper : Z;          (* SFGenerator, uint16 *)
  ModAmount : Z;            (* int16 *)
  ModAmtSrcOper : Z;        (* SFModulator, uint16 *)
  ModTransOper : Z          (* SFTransform, uint16 *)
}.

Record Generator : Type := mkGenerator {
  GenOper : Z;              (* SFGenerator, uint16 *)
  GenAmount : Z             (* int16 *)
}.

Record Instrument : Type := mkInstrument {
  Name : list byte;         (* [20]byte *)
  InstBagNdx : Z            (* uint16 *)
}.

Record IBagRecord : Type := mkIBag {
  InstGenIndex : Z;         (* uint16 *)
  InstModIndex : Z          (* uint16 *)
}.

Record SampleHeader : Type := mkSampleHeader {
  SampleName : list byte;   (* [20]byte *)
  Start : Z;                (* uint32 *)
  End_ : Z;                 (* uint32, field End *)
  Startloop : Z;            (* uint32 *)
  Endloop : Z;              (* uint32 *)
  SampleRate : Z;           (* uint32 *)
  OriginalPitch : Z;        (* uint8 *)
  PitchCorrection : Z;      (* int8 *)
  SampleLink : Z;           (* uint16 *)
  SampleType : Z            (* SfSampleType, uint16 *)
}.

Record SoundFontHydra : Type := mkHydra {
  Headers : list PresetHeader;
  PBag : list PBagRecord;
  PresetModulators : list Modulator;
  PresetGenerators : list Generator;
  Instuments : list Instrument;
  IBag : list IBagRecord;
  InstrumentModulators : list Modulator;
  InstrumentGenerators : list Generator;
  Samples : list SampleHeader
}.

(** [&SoundFontHydra{}]: every slice is nil. *)
Definition empty_hydra : SoundFontHydra := mkHydra [] [] [] [] [] [] [] [] [].

(** *** [binary.Read] into a struct

    [binary.Read] reads [dataSize] bytes with [io.ReadFull] and then walks
    the fields of the struct in order over that buffer, each multi-byte
    field through the byte order. *)
Definition decoder (A : Type) : Type := list byte → option (A * list byte).

#[global] Instance decoder_ret : MRet decoder := λ A x buf, Some (x, buf).
#[global] Instance decoder_bind : MBind decoder :=
  λ A B f m buf, match m buf with Some (x, buf') => f x buf' | None => None end.

Definition dec_uint8 : decoder Z := λ buf,
  match buf with
  | b :: buf' => Some (byte_to_Z b, buf')
  | _ => None
  end.

Definition dec_uint16 : decoder Z := λ buf,
  match buf with
  | b0 :: b1 :: buf' => Some (le_uint16 b0 b1, buf')
  | _ => None
  end.

Definition dec_uint32 : decoder Z := λ buf,
  match buf with
  | b0 :: b1 :: b2 :: b3 :: buf' => Some (le_uint32 b0 b1 b2 b3, buf')
  | _ => None
  end.

Definition dec_int8 : decoder Z := x ← dec_uint8; mret (int8 x).
Definition dec_int16 : decoder Z := x ← dec_uint16; mret (int16 x).

(** An array [[n]byte]. *)
Definition dec_bytes (n : nat) : decoder (list byte) := λ buf,
  if bool_decide (length buf < n)%nat then None
  else Some (take n buf, drop n buf).

Definition binary_Read {A} (dataSize : nat) (dec : decoder A) (r : reader)
  : result (A * reader) :=
  '(buf, r') ← ReadFull dataSize r;
  match dec buf with
  | Some (x, _) => inr (x, r')
  | None => inl Panic
  end.

Definition dec_PresetHeader : decoder PresetHeader :=
  name ← dec_bytes 20;
  preset ← dec_uint16;
  bank ← dec_uint16;
  ndx ← dec_uint16;
  library ← dec_uint32;
  genre ← dec_uint32;
  morphology ← dec_uint32;
  mret (mkPresetHeader name preset bank ndx library genre morphology).

Definition dec_Modulator : decoder Modulator :=
  src ← dec_uint16;
  dest ← dec_uint16;
  amount ← dec_int16;
  amtsrc ← dec_uint16;
  trans ← dec_uint16;
  mret (mkModulator src dest amount amtsrc trans).

Definition dec_Generator : decoder Generator :=
  oper ← dec_uint16;
  amount ← dec_int16;
  mret (mkGenerator oper amount).

Definition dec_Instrument : decoder Instrument :=
  name ← dec_bytes 20;
  ndx ← dec_uint16;
  mret (mkInstrument name ndx).

Definition dec_SampleHeader : decoder SampleHeader :=
  name ← dec_bytes 20;
  start ← dec_uint32;
  end_ ← dec_uint32;
  startloop ← dec_uint32;
  endloop ← dec_uint32;
  rate ← dec_uint32;
  pitch ← dec_uint8;
  correction ← dec_int8;
  link ← dec_uint16;
  type ← dec_uint16;
  mret (mkSampleHeader name start end_ startloop endloop rate
          pitch correction link type).

(** The sizes [binary.Read] computes for the five struct types. *)
Definition size_PresetHeader : nat := 20 + 2 + 2 + 2 + 4 + 4 + 4.
Definition size_Modulator : nat := 2 + 2 + 2 + 2 + 2.
Definition size_Generator : nat := 2 + 2.
Definition size_Instrument : nat := 20 + 2.
Definition size_SampleHeader : nat := 20 + 4 + 4 + 4 + 4 + 4 + 1 + 1 + 2 + 2.

(** [s := make([]T, n); for i := 0; i < len(s); i++
      { if err := binary.Read(chunkReader, binary.LittleEndian, &s[i]);
        err != nil { return nil, err } }]. *)
Fixpoint read_records {A} (dataSize : nat) (dec : decoder A) (n : nat)
    (chunkReader : reader) : result (list A) :=
  match n with
  | O => inr []
  | S n' =>
      '(x, chunkReader') ← binary_Read dataSize dec chunkReader;
      xs ← read_records dataSize dec n' chunkReader';
      inr (x :: xs)
  end.

(** The bodies of the two index loops, for pbag and ibag. *)
Definition pbag_record (data : list byte) (i : nat) : result PBagRecord :=
  g1 ← index data (4 * i + 1);
  g0 ← index data (4 * i);
  m1 ← index data (4 * i + 3);
  m0 ← index data (4 * i + 2);
  mret (mkPBag (Z.lor (shl_uint16 (byte_to_Z g1) 8) (byte_to_Z g0))
               (Z.lor (shl_uint16 (byte_to_Z m1) 8) (byte_to_Z m0))).

Definition ibag_record (data : list byte) (i : nat) : result IBagRecord :=
  g1 ← index data (4 * i + 1);
  g0 ← index data (4 * i);
  m1 ← index data (4 * i + 3);
  m0 ← index data (4 * i + 2);
  mret (mkIBag (Z.lor (shl_uint16 (byte_to_Z g1) 8) (byte_to_Z g0))
               (Z.lor (shl_uint16 (byte_to_Z m1) 8) (byte_to_Z m0))).

Definition tag_phdr : tag := ("p", "h", "d", "r")%byte.
Definition tag_pbag : tag := ("p", "b", "a", "g")%byte.
Definition tag_pmod : tag := ("p", "m", "o", "d")%byte.
Definition tag_pgen : tag := ("p", "g", "e", "n")%byte.
Definition tag_inst : tag := ("i", "n", "s", "t")%byte.
Definition tag_ibag : tag := ("i", "b", "a", "g")%byte.
Definition tag_imod : tag := ("i", "m", "o", "d")%byte.
Definition tag_igen : tag := ("i", "g", "e", "n")%byte.
Definition tag_shdr : tag := ("s", "h", "d", "r")%byte.

(** [pdtaChunks] after its nine initial assignments. *)
Definition pdtaChunks_init : gmap tag bool :=
  <[tag_shdr := false]> (<[tag_igen := false]> (<[tag_imod := false]>
  (<[tag_ibag := false]> (<[tag_inst := false]> (<[tag_pgen := false]>
  (<[tag_pmod := false]> (<[tag_pbag := false]> (<[tag_phdr := false]> ∅)))))))).

(** Assignments to the fields of [sound]. *)
Definition set_Headers (v : list PresetHeader) (h : SoundFontHydra) :=
  mkHydra v (PBag h) (PresetModulators h) (PresetGenerators h) (Instuments h)
    (IBag h) (InstrumentModulators h) (InstrumentGenerators h) (Samples h).
Definition set_PBag (v : list PBagRecord) (h : SoundFontHydra) :=
  mkHydra (Headers h) v (PresetModulators h) (PresetGenerators h) (Instuments h)
    (IBag h) (InstrumentModulators h) (InstrumentGenerators h) (Samples h).
Definition set_PresetModulators (v : list Modulator) (h : SoundFontHydra) :=
  mkHydra (Headers h) (PBag h) v (PresetGenerators h) (Instuments h)
    (IBag h) (InstrumentModulators h) (InstrumentGenerators h) (Samples h).
Definition set_PresetGenerators (v : list Generator) (h : SoundFontHydra) :=
  mkHydra (Headers h) (PBag h) (PresetModulators h) v (Instuments h)
    (IBag h) (InstrumentModulators h) (InstrumentGenerators h) (Samples h).
Definition set_Instuments (v : list Instrument) (h : SoundFontHydra) :=
  mkHydra (Headers h) (PBag h) (PresetModulators h) (PresetGenerators h) v
    (IBag h) (InstrumentModulators h) (InstrumentGenerators h) (Samples h).
Definition set_IBag (v : list IBagRecord) (h : SoundFontHydra) :=
  mkHydra (Headers h) (PBag h) (PresetModulators h) (PresetGenerators h)
    (Instuments h) v (InstrumentModulators h) (InstrumentGenerators h) (Samples h).
Definition set_InstrumentModulators (v : list Modulator) (h : SoundFontHydra) :=
  mkHydra (Headers h) (PBag h) (PresetModulators h) (PresetGenerators h)
    (Instuments h) (IBag h) v (InstrumentGenerators h) (Samples h).
Definition set_InstrumentGenerators (v : list Generator) (h : SoundFontHydra) :=
  mkHydra (Headers h) (PBag h) (PresetModulators h) (PresetGenerators h)
    (Instuments h) (IBag h) (InstrumentModulators h) v (Samples h).
Definition set_Samples (v : list SampleHeader) (h : SoundFontHydra) :=
  mkHydra (Headers h) (PBag h) (PresetModulators h) (PresetGenerators h)
    (Instuments h) (IBag h) (InstrumentModulators h) (InstrumentGenerators h) v.

(** The [switch chunk.id] of the loop body. *)
Definition hydra_switch (ck : chunk) (sound : SoundFontHydra)
  : result SoundFontHydra :=
  if bool_decide (id ck = tag_phdr) then
    if bool_decide (size ck mod 38 ≠ 0)
    then inl (ErrInvalidSize "preset header" (size ck))
    else v ← read_records size_PresetHeader dec_PresetHeader
               (Z.to_nat (size ck / 38)) (newReader ck);
         inr (set_Headers v sound)
  else if bool_decide (id ck = tag_pbag) then
    if bool_decide (size ck mod 4 ≠ 0)
    then inl (ErrInvalidSize "preset bag" (size ck))
    else v ← fill (Z.to_nat (size ck / 4)) (pbag_record (data ck));
         inr (set_PBag v sound)
  else if bool_decide (id ck = tag_pmod) then
    if bool_decide (size ck mod 10 ≠ 0)
    then inl (ErrInvalidSize "preset modulator" (size ck))
    else v ← read_records size_Modulator dec_Modulator
               (Z.to_nat (size ck / 10)) (newReader ck);
         inr (set_PresetModulators v sound)
  else if bool_decide (id ck = tag_pgen) then
    if bool_decide (size ck mod 4 ≠ 0)
    then inl (ErrInvalidSize "preset generator" (size ck))
    else v ← read_records size_Generator dec_Generator
               (Z.to_nat (size ck / 4)) (newReader ck);
         inr (set_PresetGenerators v sound)
  else if bool_decide (id ck = tag_inst) then
    if bool_decide (size ck mod 22 ≠ 0)
    then inl (ErrInvalidSize "instrument header" (size ck))
    else v ← read_records size_Instrument dec_Instrument
               (Z.to_nat (size ck / 22)) (newReader ck);
         inr (set_Instuments v sound)
  else if bool_decide (id ck = tag_ibag) then
    if bool_decide (size ck mod 4 ≠ 0)
    then inl (ErrInvalidSize "preset bag" (size ck))
    else v ← fill (Z.to_nat (size ck / 4)) (ibag_record (data ck));
         inr (set_IBag v sound)
  else if bool_decide (id ck = tag_imod) then
    if bool_decide (size ck mod 10 ≠ 0)
    then inl (ErrInvalidSize "preset modulator" (size ck))
    else v ← read_records size_Modulator dec_Modulator
               (Z.to_nat (size ck / 10)) (newReader ck);
         inr (set_InstrumentModulators v sound)
  else if bool_decide (id ck = tag_igen) then
    if bool_decide (size ck mod 4 ≠ 0)
    then inl (ErrInvalidSize "preset generator" (size ck))
    else v ← read_records size_Generator dec_Generator
               (Z.to_nat (size ck / 4)) (newReader ck);
         inr (set_InstrumentGenerators v sound)
  else if bool_decide (id ck = tag_shdr) then
    if bool_decide (size ck mod 46 ≠ 0)
    then inl (ErrInvalidSize "sample header" (size ck))
    else v ← read_records size_SampleHeader dec_SampleHeader
               (Z.to_nat (size ck / 46)) (newReader ck);
         inr (set_Samples v sound)
  else inr sound.

(** The loop body after [chunk.parse]: the state is [sound] and [pdtaChunks]. *)
Definition hydra_chunk (ck : chunk) (st : SoundFontHydra * gmap tag bool)
  : result (SoundFontHydra * gmap tag bool) :=
  let '(sound, pdtaChunks) := st in
  match pdtaChunks !! id ck with
  | None => inr (sound, pdtaChunks)            (* skip unknown chunks *)
  | Some _ =>
      let pdtaChunks := <[id ck := true]> pdtaChunks in
      sound ← hydra_switch ck sound;
      inr (sound, pdtaChunks)
  end.

(** [for ck, ok := range pdtaChunks { if !ok { return ... } }], the keys
    visited in the order [order]: the first key whose value is false. *)
Fixpoint first_missing (order : list tag) (pdtaChunks : gmap tag bool)
  : option tag :=
  match order with
  | [] => None
  | ck :: order' =>
      match pdtaChunks !! ck with
      | Some false => Some ck
      | _ => first_missing order' pdtaChunks
      end
  end.

(** Go leaves the order in which [range] visits the keys of a map
    unspecified; [order] is that order, a permutation of the nine keys. *)
Definition ReadSoundFontHydra (order : list tag) (r : reader)
  : result SoundFontHydra :=
  '(sound, pdtaChunks) ← chunk_loop hydra_chunk r (empty_hydra, pdtaChunks_init);
  match first_missing order pdtaChunks with
  | Some ck => inl (ErrMissingChunk ck)
  | None => inr sound
  end.

End Hydra.

(** ** The INFO list *)

Module Info.
Import Chunk.

Record Version : Type := mkVersion {
  Major : Z;                (* uint16 *)
  Minor : Z                 (* uint16 *)
}.

Record SoundFontInfo : Type := mkInfo {
  SfVersion : Version;
  Engine : string;
  Name : string;
  ROM : string;
  ROMVer : Version;
  CreationDate : string;
  Engineers : string;
  Product : string;
  Copyright : string;
  Comments : string;
  Software : string
}.

(** [&SoundFontInfo{}]. *)
Definition empty_info : SoundFontInfo :=
  mkInfo (mkVersion 0 0) "" "" "" (mkVersion 0 0) "" "" "" "" "" "".

Definition tag_ifil : tag := ("i", "f", "i", "l")%byte.
Definition tag_isng : tag := ("i", "s", "n", "g")%byte.
Definition tag_INAM : tag := ("I", "N", "A", "M")%byte.
Definition tag_irom : tag := ("i", "r", "o", "m")%byte.
Definition tag_iver : tag := ("i", "v", "e", "r")%byte.
Definition tag_ICRD : tag := ("I", "C", "R", "D")%byte.
Definition tag_IENG : tag := ("I", "E", "N", "G")%byte.
Definition tag_IPRD : tag := ("I", "P", "R", "D")%byte.
Definition tag_ICOP : tag := ("I", "C", "O", "P")%byte.
Definition tag_ICMT : tag := ("I", "C", "M", "T")%byte.
Definition tag_ISFT : tag := ("I", "S", "F", "T")%byte.

(** [infoChunks] after its eleven initial assignments. *)
Definition infoChunks_init : gmap tag bool :=
  <[tag_ISFT := false]> (<[tag_ICMT := false]> (<[tag_ICOP := false]>
  (<[tag_IPRD := false]> (<[tag_IENG := false]> (<[tag_ICRD := false]>
  (<[tag_iver := false]> (<[tag_irom := false]> (<[tag_INAM := false]>
  (<[tag_isng := false]> (<[tag_ifil := false]> ∅)))))))))).

(** Assignments to the fields of [info]. *)
Definition set_SfVersion (v : Version) (i : SoundFontInfo) :=
  mkInfo v (Engine i) (Name i) (ROM i) (ROMVer i) (CreationDate i)
    (Engineers i) (Product i) (Copyright i) (Comments i) (Software i).
Definition set_Engine (v : string) (i : SoundFontInfo) :=
  mkInfo (SfVersion i) v (Name i) (ROM i) (ROMVer i) (CreationDate i)
    (Engineers i) (Product i) (Copyright i) (Comments i) (Software i).
Definition set_Name (v : string) (i : SoundFontInfo) :=
  mkInfo (SfVersion i) (Engine i) v (ROM i) (ROMVer i) (CreationDate i)
    (Engineers i) (Product i) (Copyright i) (Comments i) (Software i).
Definition set_ROM (v : string) (i : SoundFontInfo) :=
  mkInfo (SfVersion i) (Engine i) (Name i) v (ROMVer i) (CreationDate i)
    (Engineers i) (Product i) (Copyright i) (Comments i) (Software i).
Definition set_ROMVer (v : Version) (i : SoundFontInfo) :=
  mkInfo (SfVersion i) (Engine i) (Name i) (ROM i) v (CreationDate i)
    (Engineers i) (Product i) (Copyright i) (Comments i) (Software i).
Definition set_CreationDate (v : string) (i : SoundFontInfo) :=
  mkInfo (SfVersion i) (Engine i) (Name i) (ROM i) (ROMVer i) v
    (Engineers i) (Product i) (Copyright i) (Comments i) (Software i).
Definition set_Engineers (v : string) (i : SoundFontInfo) :=
  mkInfo (SfVersion i) (Engine i) (Name i) (ROM i) (ROMVer i) (CreationDate i)
    v (Product i) (Copyright i) (Comments i) (Software i).
Definition set_Product (v : string) (i : SoundFontInfo) :=
  mkInfo (SfVersion i) (Engine i) (Name i) (ROM i) (ROMVer i) (CreationDate i)
    (Engineers i) v (Copyright i) (Comments i) (Software i).
Definition set_Copyright (v : string) (i : SoundFontInfo) :=
  mkInfo (SfVersion i) (Engine i) (Name i) (ROM i) (ROMVer i) (CreationDate i)
    (Engineers i) (Product i) v (Comments i) (Software i).
Definition set_Comments (v : string) (i : SoundFontInfo) :=
  mkInfo (SfVersion i) (Engine i) (Name i) (ROM i) (ROMVer i) (CreationDate i)
    (Engineers i) (Product i) (Copyright i) v (Software i).
Definition set_Software (v : string) (i : SoundFontInfo) :=
  mkInfo (SfVersion i) (Engine i) (Name i) (ROM i) (ROMVer i) (CreationDate i)
    (Engineers i) (Product i) (Copyright i) (Comments i) v.

(** The two assignments of the ifil and iver cases: major from bytes 0-1,
    minor from bytes 2-3. *)
Definition version_of (data : list byte) : result Version :=
  b1 ← index data 1;
  b0 ← index data 0;
  b3 ← index data 3;
  b2 ← index data 2;
  mret (mkVersion (Z.lor (shl_uint16 (byte_to_Z b1) 8) (byte_to_Z b0))
                  (Z.lor (shl_uint16 (byte_to_Z b3) 8) (byte_to_Z b2))).

(** [string(chunk.data)]. *)
Definition string_of (data : list byte) : string := string_of_list_byte data.

(** The [switch chunk.id] of the loop body. *)
Definition info_switch (ck : chunk) (info : SoundFontInfo)
  : result SoundFontInfo :=
  if bool_decide (id ck = tag_ifil) then
    if bool_decide (size ck ≠ 4)
    then inl (Errorf "ifil subchunk must contain 4 bytes")
    else v ← version_of (data ck); inr (set_SfVersion v info)
  else if bool_decide (id ck = tag_isng) then
    if bool_decide (size ck > 256)
    then inl (Errorf "isng subchunk must contain 256 or fewer bytes")
    else inr (set_Engine (string_of (data ck)) info)
  else if bool_decide (id ck = tag_INAM) then
    if bool_decide (size ck > 256)
    then inl (Errorf "Inam subchunk must contain 256 or fewer bytes")
    else inr (set_Name (string_of (data ck)) info)
  else if bool_decide (id ck = tag_irom) then
    if bool_decide (size ck > 256)
    then inl (Errorf "irom subchunk must contain 256 or fewer bytes")
    else inr (set_ROM (string_of (data ck)) info)
  else if bool_decide (id ck = tag_iver) then
    if bool_decide (size ck ≠ 4)
    then inl (Errorf "iver subchunk must contain 4 bytes")
    else v ← version_of (data ck); inr (set_ROMVer v info)
  else if bool_decide (id ck = tag_ICRD) then
    if bool_decide (size ck > 256)
    then inl (Errorf "ICRD subchunk must contain 256 or fewer bytes")
    else inr (set_CreationDate (string_of (data ck)) info)
  else if bool_decide (id ck = tag_IENG) then
    if bool_decide (size ck > 256)
    then inl (Errorf "IENG subchunk must contain 256 or fewer bytes")
    else inr (set_Engineers (string_of (data ck)) info)
  else if bool_decide (id ck = tag_IPRD) then
    if bool_decide (size ck > 256)
    then inl (Errorf "IPRD subchunk must contain 256 or fewer bytes")
    else inr (set_Product (string_of (data ck)) info)
  else if bool_decide (id ck = tag_ICOP) then
    if bool_decide (size ck > 256)
    then inl (Errorf "ICOP subchunk must contain 256 or fewer bytes")
    else inr (set_Copyright (string_of (data ck)) info)
  else if bool_decide (id ck = tag_ICMT) then
    if bool_decide (size ck > 65536)
    then inl (Errorf "ICMT subchunk must contain 65536 or fewer bytes")
    else inr (set_Comments (string_of (data ck)) info)
  else if bool_decide (id ck = tag_ISFT) then
    if bool_decide (size ck > 256)
    then inl (Errorf "ISFT subchunk must contain 256 or fewer bytes")
    else inr (set_Software (string_of (data ck)) info)
  else inr info.

(** The loop body after [chunk.parse]: the state is [info] and [infoChunks]. *)
Definition info_chunk (ck : chunk) (st : SoundFontInfo * gmap tag bool)
  : result (SoundFontInfo * gmap tag bool) :=
  let '(info, infoChunks) := st in
  match infoChunks !! id ck with
  | None => inr (info, infoChunks)             (* skip unknown chunks *)
  | Some seen =>
      if (seen : bool) then inl (ErrDuplicateChunk (id ck))
      else
        let infoChunks := <[id ck := true]> infoChunks in
        info ← info_switch ck info;
        inr (info, infoChunks)
  end.

(** [m[k]] for a [map[[4]byte]bool]: false when the key is absent. *)
Definition map_get (m : gmap tag bool) (k : tag) : bool := default false (m !! k).

(** [ReadSoundFontInfo] parses a SoundFont info list. *)
Definition ReadSoundFontInfo (r : reader) : result SoundFontInfo :=
  '(ok, r) ← Expect r [("I")%byte; ("N")%byte; ("F")%byte; ("O")%byte];
  if negb ok then inl (ErrExpected "INFO")
  else
    '(info, infoChunks) ← chunk_loop info_chunk r (empty_info, infoChunks_init);
    if negb (map_get infoChunks tag_ifil)
    then inl (Errorf "ifil chunk is missing")
    else if negb (map_get infoChunks tag_isng)
    then inr (set_Engine "EMU8000" info)
    else inr info.

End Info.

(** ** Byte layouts as encoders *)

(** Modelled from the spec: the package only decodes, it has no writer.  The
    chunk framing of section 6 (four tag bytes, a four-byte little-endian
    unsigned length, the payload) and the record layouts of the table of
    section 4.3 (fields in order, every multi-byte field little-endian)
    written as functions to bytes, to name the inputs of the decoders and to
    state the round trip. *)
Module Layout.
Import Chunk.

Definition put_uint16 (v : Z) : list byte :=
  [byte_of_Z v; byte_of_Z (Z.shiftr v 8)].

Definition put_uint32 (v : Z) : list byte :=
  [byte_of_Z v; byte_of_Z (Z.shiftr v 8);
   byte_of_Z (Z.shiftr v 16); byte_of_Z (Z.shiftr v 24)].

Definition put_uint8 (v : Z) : list byte := [byte_of_Z v].

(** A chunk with payload [d]: the declared length is the payload length. *)
Definition chunk_of (t : tag) (d : list byte) : chunk :=
  mkChunk t (Z.of_nat (length d)) d.

Definition frame (ck : chunk) : list byte :=
  tag_bytes (id ck) ++ put_uint32 (size ck) ++ data ck.

Definition frames (cs : list chunk) : list byte := concat (frame <$> cs).

(** The loop body run over a list of chunks. *)
Fixpoint run_chunks {S : Type} (body : chunk → S → result S)
    (cs : list chunk) (s : S) : result S :=
  match cs with
  | [] => inr s
  | ck :: cs' => s' ← body ck s; run_chunks body cs' s'
  end.

(** The payload length equals the declared length, which fits 32 bits. *)
Definition well_framed (ck : chunk) : Prop :=
  size ck = Z.of_nat (length (data ck)) ∧ size ck < 2 ^ 32.

#[global] Instance well_framed_dec ck : Decision (well_framed ck).
Proof. unfold well_framed. apply _. Defined.

Definition enc_PresetHeader (p : Hydra.PresetHeader) : list byte :=
  Hydra.PresetName p ++ put_uint16 (Hydra.Preset p) ++ put_uint16 (Hydra.Bank p)
  ++ put_uint16 (Hydra.PresetBagNdx p) ++ put_uint32 (Hydra.Library p)
  ++ put_uint32 (Hydra.Genre p) ++ put_uint32 (Hydra.Morphology p).

Definition enc_PBag (b : Hydra.PBagRecord) : list byte :=
  put_uint16 (Hydra.GenIndex b) ++ put_uint16 (Hydra.ModIndex b).

Definition enc_Modulator (m : Hydra.Modulator) : list byte :=
  put_uint16 (Hydra.ModSrcOper m) ++ put_uint16 (Hydra.ModDestOper m)
  ++ put_uint16 (uint16 (Hydra.ModAmount m))
  ++ put_uint16 (Hydra.ModAmtSrcOper m) ++ put_uint16 (Hydra.ModTransOper m).

Definition enc_Generator (g : Hydra.Generator) : list byte :=
  put_uint16 (Hydra.GenOper g) ++ put_uint16 (uint16 (Hydra.GenAmount g)).

Definition enc_Instrument (i : Hydra.Instrument) : list byte :=
  Hydra.Name i ++ put_uint16 (Hydra.InstBagNdx i).

Definition enc_IBag (b : Hydra.IBagRecord) : list byte :=
  put_uint16 (Hydra.InstGenIndex b) ++ put_uint16 (Hydra.InstModIndex b).

Definition enc_SampleHeader (s : Hydra.SampleHeader) : list byte :=
  Hydra.SampleName s ++ put_uint32 (Hydra.Start s) ++ put_uint32 (Hydra.End_ s)
  ++ put_uint32 (Hydra.Startloop s) ++ put_uint32 (Hydra.Endloop s)
  ++ put_uint32 (Hydra.SampleRate s) ++ put_uint8 (Hydra.OriginalPitch s)
  ++ put_uint8 (to_unsigned 8 (Hydra.PitchCorrection s))
  ++ put_uint16 (Hydra.SampleLink s) ++ put_uint16 (Hydra.SampleType s).

(** The nine arrays of the hydra, by tag, with the record width of each. *)
Inductive hydra_field : Type :=
| Fphdr | Fpbag | Fpmod | Fpgen | Finst | Fibag | Fimod | Figen | Fshdr.

#[global] Instance hydra_field_eq_dec : EqDecision hydra_field.
Proof. solve_decision. Defined.

Definition hydra_fields : list hydra_field :=
  [Fphdr; Fpbag; Fpmod; Fpgen; Finst; Fibag; Fimod; Figen; Fshdr].

Definition field_tag (f : hydra_field) : tag :=
  match f with
  | Fphdr => Hydra.tag_phdr | Fpbag => Hydra.tag_pbag | Fpmod => Hydra.tag_pmod
  | Fpgen => Hydra.tag_pgen | Finst => Hydra.tag_inst | Fibag => Hydra.tag_ibag
  | Fimod => Hydra.tag_imod | Figen => Hydra.tag_igen | Fshdr => Hydra.tag_shdr
  end.

Definition field_width (f : hydra_field) : Z :=
  match f with
  | Fphdr => 38 | Fpbag => 4 | Fpmod => 10 | Fpgen => 4 | Finst => 22
  | Fibag => 4 | Fimod => 10 | Figen => 4 | Fshdr => 46
  end.

(** The nine keys of [pdtaChunks]. *)
Definition hydra_tags : list tag := field_tag <$> hydra_fields.

(** The array a tag belongs to, if it is one of the nine. *)
Definition classify (t : tag) : option hydra_field :=
  find (λ f, bool_decide (field_tag f = t)) hydra_fields.

(** A chunk of one of the nine tags holds whole records. *)
Definition well_sized (ck : chunk) : Prop :=
  match classify (id ck) with
  | Some f => size ck mod field_width f = 0
  | None => True
  end.

#[global] Instance well_sized_dec ck : Decision (well_sized ck).
Proof. unfold well_sized. destruct (classify (id ck)); apply _. Defined.

(** A map with the nine keys, as [pdtaChunks] is throughout. *)
Definition nine_keys (m : gmap tag bool) : Prop :=
  ∀ t, is_Some (m !! t) ↔ is_Some (classify t).

(** [pdtaChunks] after a chunk was accepted: its tag, if known, is seen. *)
Definition mark (m : gmap tag bool) (ck : chunk) : gmap tag bool :=
  match m !! id ck with
  | Some _ => <[id ck := true]> m
  | None => m
  end.

(** The re-encoding of one array of a decoded hydra. *)
Definition encode_field (f : hydra_field) (h : Hydra.SoundFontHydra) : list byte :=
  match f with
  | Fphdr => concat (enc_PresetHeader <$> Hydra.Headers h)
  | Fpbag => concat (enc_PBag <$> Hydra.PBag h)
  | Fpmod => concat (enc_Modulator <$> Hydra.PresetModulators h)
  | Fpgen => concat (enc_Generator <$> Hydra.PresetGenerators h)
  | Finst => concat (enc_Instrument <$> Hydra.Instuments h)
  | Fibag => concat (enc_IBag <$> Hydra.IBag h)
  | Fimod => concat (enc_Modulator <$> Hydra.InstrumentModulators h)
  | Figen => concat (enc_Generator <$> Hydra.InstrumentGenerators h)
  | Fshdr => concat (enc_SampleHeader <$> Hydra.Samples h)
  end.

(** The number of records of one array of a decoded hydra. *)
Definition field_length (f : hydra_field) (h : Hydra.SoundFontHydra) : nat :=
  match f with
  | Fphdr => length (Hydra.Headers h)
  | Fpbag => length (Hydra.PBag h)
  | Fpmod => length (Hydra.PresetModulators h)
  | Fpgen => length (Hydra.PresetGenerators h)
  | Finst => length (Hydra.Instuments h)
  | Fibag => length (Hydra.IBag h)
  | Fimod => length (Hydra.InstrumentModulators h)
  | Figen => length (Hydra.InstrumentGenerators h)
  | Fshdr => length (Hydra.Samples h)
  end.

(** Two hydras hold the same records in the array of [f]. *)
Definition same_field (f : hydra_field) (h1 h2 : Hydra.SoundFontHydra) : Prop :=
  match f with
  | Fphdr => Hydra.Headers h1 = Hydra.Headers h2
  | Fpbag => Hydra.PBag h1 = Hydra.PBag h2
  | Fpmod => Hydra.PresetModulators h1 = Hydra.PresetModulators h2
  | Fpgen => Hydra.PresetGenerators h1 = Hydra.PresetGenerators h2
  | Finst => Hydra.Instuments h1 = Hydra.Instuments h2
  | Fibag => Hydra.IBag h1 = Hydra.IBag h2
  | Fimod => Hydra.InstrumentModulators h1 = Hydra.InstrumentModulators h2
  | Figen => Hydra.InstrumentGenerators h1 = Hydra.InstrumentGenerators h2
  | Fshdr => Hydra.Samples h1 = Hydra.Samples h2
  end.

(** The eleven keys of [infoChunks]. *)
Definition info_tags : list tag :=
  [Info.tag_ifil; Info.tag_isng; Info.tag_INAM; Info.tag_irom; Info.tag_iver;
   Info.tag_ICRD; Info.tag_IENG; Info.tag_IPRD; Info.tag_ICOP; Info.tag_ICMT;
   Info.tag_ISFT].

(** The sizes the INFO switch accepts: four bytes for the two version
    chunks, at most 65536 for the comments, at most 256 for the other eight
    known tags, anything for an unknown tag. *)
Definition info_size_ok (ck : chunk) : Prop :=
  (id ck ∈ [Info.tag_ifil; Info.tag_iver] → size ck = 4)
  ∧ (id ck = Info.tag_ICMT → size ck ≤ 65536)
  ∧ (id ck ∈ [Info.tag_isng; Info.tag_INAM; Info.tag_irom; Info.tag_ICRD;
              Info.tag_IENG; Info.tag_IPRD; Info.tag_ICOP; Info.tag_ISFT] →
     size ck ≤ 256).

#[global] Instance info_size_ok_dec ck : Decision (info_size_ok ck).
Proof. unfold info_size_ok. apply _. Defined.

(** An INFO list: the list type, framed chunks, and a tail. *)
Definition info_list (cs : list chunk) (tail : list byte) : list byte :=
  tag_bytes ("I", "N", "F", "O")%byte ++ frames cs ++ tail.

(** The last chunk of a list that carries tag [t]. *)
Definition last_with (t : tag) (cs : list chunk) : option chunk :=
  last (filter (λ ck : chunk, id ck = t) cs).

(** What the two loops of the sample decoder compute from a payload. *)
Definition higher_of (d : list byte) : list Z :=
  (λ i, Z.lor (shl_int16 (int16 (byte_to_Z (d !!! (i * 2 + 1)%nat))) 8)
              (shl_int16 (int16 (byte_to_Z (d !!! (i * 2)%nat))) 8))
  <$> seq 0 (length d / 2).

Definition lower_of (d : list byte) : list Z :=
  (λ b, int8 (byte_to_Z b)) <$> d.

(** *** Inputs used in examples *)

(** One empty chunk for each of the nine tags. *)
Definition nine_empty : list chunk :=
  (λ f, chunk_of (field_tag f) []) <$> hydra_fields.

(** The nine empty chunks, then a generator chunk of three bytes. *)
Definition nine_and_odd_pgen : list chunk :=
  nine_empty ++ [chunk_of Hydra.tag_pgen [x01; x02; x03]].

(** The nine empty chunks, then two more preset bag chunks. *)
Definition nine_and_two_pbag : list chunk :=
  nine_empty
  ++ [chunk_of Hydra.tag_pbag [x01; x00; x02; x00];
      chunk_of Hydra.tag_pbag [x03; x00; x04; x00; x05; x00; x06; x00]].

(** A version chunk (2.1) and a bank name. *)
Definition ifil_and_INAM : list chunk :=
  [chunk_of Info.tag_ifil [x02; x00; x01; x00];
   chunk_of Info.tag_INAM [x42; x61; x6e; x6b; x00; x00]].

End Layout.

(** ** The bank: the three lists of a RIFF container *)

Module Bank.
Import Chunk.

Record SoundFont : Type := mkSoundFont {
  Info : Info.SoundFontInfo;
  Samples : Samples.SoundFontSamples;
  Hydra : Hydra.SoundFontHydra
}.

Definition tag_RIFF : tag := ("R", "I", "F", "F")%byte.
Definition tag_LIST : tag := ("L", "I", "S", "T")%byte.

(** [ReadSoundFont]: the RIFF header, the form type, then the three LIST
    chunks in order.  [r] is rebound to the reader of the RIFF payload and
    every [listReader] is the reader of one LIST payload.  The final
    [io.Copy(io.Discard, listReader)] drains an in-memory reader, which
    cannot fail, and its count is only printed.  [order] is the order of
    the [range] of [ReadSoundFontHydra]. *)
Definition ReadSoundFont (order : list tag) (r : reader) : result SoundFont :=
  '(riffHeader, _) ← expect r tag_RIFF;
  let r := newReader riffHeader in
  '(ok, r) ← Expect r [("s")%byte; ("f")%byte; ("b")%byte; ("k")%byte];
  if negb ok then inl (Errorf "expected sfbk")
  else
    '(listHeader, r) ← expect r tag_LIST;
    let listReader := newReader listHeader in
    info ← Info.ReadSoundFontInfo listReader;
    '(listHeader, r) ← expect r tag_LIST;
    let listReader := newReader listHeader in
    '(ok, listReader) ← Expect listReader
                          [("s")%byte; ("d")%byte; ("t")%byte; ("a")%byte];
    if negb ok then inl (Errorf "expected sdta")
    else
      sound ← Samples.ReadSoundFontSamples listReader;
      '(listHeader, r) ← expect r tag_LIST;
      let listReader := newReader listHeader in
      '(ok, listReader) ← Expect listReader
                            [("p")%byte; ("d")%byte; ("t")%byte; ("a")%byte];
      if negb ok then inl (Errorf "expected pdta")
      else
        hydra ← Hydra.ReadSoundFontHydra order listReader;
        inr (mkSoundFont info sound hydra).

End Bank.

(** ** The sample type of a sample header *)

Module SfSampleType.

Definition SampleType_Mono : Z := 1.
Definition SampleType_Right : Z := 2.
Definition SampleType_Left : Z := 4.
Definition SampleType_Link : Z := 8.
Definition SampleType_Rom_Mono : Z := 0x8001.
Definition SampleType_Rom_Right : Z := 0x8002.
Definition SampleType_Rom_Left : Z := 0x8004.
Definition SampleType_Rom_Link : Z := 0x8008.

(** The verb [%d] of [fmt.Sprintf] on an unsigned value: its decimal
    digits.  The verb does not call the [String] method of the operand. *)
Definition Sprintf_d (n : Z) : string :=
  DecimalString.NilZero.string_of_uint (N.to_uint (Z.to_N n)).

(** [func (s SfSampleType) String() string]: the [switch] on the eight
    constants, and the formatted default. *)
Definition String (s : Z) : string :=
  if bool_decide (s = SampleType_Mono) then "Mono"
  else if bool_decide (s = SampleType_Right) then "Right"
  else if bool_decide (s = SampleType_Left) then "Left"
  else if bool_decide (s = SampleType_Link) then "Link"
  else if bool_decide (s = SampleType_Rom_Mono) then "Rom_Mono"
  else if bool_decide (s = SampleType_Rom_Right) then "Rom_Right"
  else if bool_decide (s = SampleType_Rom_Left) then "Rom_Left"
  else if bool_decide (s = SampleType_Rom_Link) then "Rom_Link"
  else "Unknown(" +:+ Sprintf_d s +:+ ")".

End SfSampleType.

(** ** Names for inputs and results of the further properties *)

Module Shape.
Import Chunk Layout.

(** The three list types and the form type. *)
Definition type_sfbk : tag := ("s", "f", "b", "k")%byte.
Definition type_INFO : tag := ("I", "N", "F", "O")%byte.
Definition type_sdta : tag := ("s", "d", "t", "a")%byte.
Definition type_pdta : tag := ("p", "d", "t", "a")%byte.

(** A RIFF container: the form type, a first list with payload [ip] (its
    list type included), a second and a third list with list types [t2]
    and [t3] and bodies [sb] and [hb], whatever else the RIFF chunk holds,
    and whatever follows the RIFF chunk. *)
Definition riff_body (ip : list byte) (t2 : tag) (sb : list byte)
    (t3 : tag) (hb : list byte) (extra : list byte) : list byte :=
  tag_bytes type_sfbk
  ++ frame (chunk_of Bank.tag_LIST ip)
  ++ frame (chunk_of Bank.tag_LIST (tag_bytes t2 ++ sb))
  ++ frame (chunk_of Bank.tag_LIST (tag_bytes t3 ++ hb))
  ++ extra.

Definition riff_file (ip : list byte) (t2 : tag) (sb : list byte)
    (t3 : tag) (hb : list byte) (extra after : list byte) : list byte :=
  frame (chunk_of Bank.tag_RIFF (riff_body ip t2 sb t3 hb extra)) ++ after.

(** The payloads fit their 32-bit lengths. *)
Definition riff_fits (ip sb hb extra : list byte) : Prop :=
  Z.of_nat (length ip) < 2 ^ 32
  ∧ Z.of_nat (4 + length sb) < 2 ^ 32
  ∧ Z.of_nat (4 + length hb) < 2 ^ 32
  ∧ Z.of_nat (4 + (8 + length ip) + (12 + length sb) + (12 + length hb)
              + length extra) < 2 ^ 32.

#[global] Instance riff_fits_dec ip sb hb extra :
  Decision (riff_fits ip sb hb extra).
Proof. unfold riff_fits. apply _. Defined.

(** The version pair in the first four bytes of a payload. *)
Definition version_at (d : list byte) : Info.Version :=
  Info.mkVersion (le_uint16 (d !!! 0%nat) (d !!! 1%nat))
                 (le_uint16 (d !!! 2%nat) (d !!! 3%nat)).

(** The field of the info that a known tag fills. *)
Definition info_field (t : tag) (i : Info.SoundFontInfo)
  : option (Info.Version + string) :=
  if decide (t = Info.tag_ifil) then Some (inl (Info.SfVersion i))
  else if decide (t = Info.tag_isng) then Some (inr (Info.Engine i))
  else if decide (t = Info.tag_INAM) then Some (inr (Info.Name i))
  else if decide (t = Info.tag_irom) then Some (inr (Info.ROM i))
  else if decide (t = Info.tag_iver) then Some (inl (Info.ROMVer i))
  else if decide (t = Info.tag_ICRD) then Some (inr (Info.CreationDate i))
  else if decide (t = Info.tag_IENG) then Some (inr (Info.Engineers i))
  else if decide (t = Info.tag_IPRD) then Some (inr (Info.Product i))
  else if decide (t = Info.tag_ICOP) then Some (inr (Info.Copyright i))
  else if decide (t = Info.tag_ICMT) then Some (inr (Info.Comments i))
  else if decide (t = Info.tag_ISFT) then Some (inr (Info.Software i))
  else None.

(** What a chunk of a known tag puts into that field: a version pair for
    the two version tags, the payload as text for the others. *)
Definition chunk_field (ck : chunk) : Info.Version + string :=
  if decide (id ck = Info.tag_ifil ∨ id ck = Info.tag_iver)
  then inl (version_at (data ck))
  else inr (Info.string_of (data ck)).

(** A map with the eleven keys, as [infoChunks] is throughout. *)
Definition info_keys (m : gmap tag bool) : Prop :=
  ∀ t, is_Some (m !! t) ↔ t ∈ info_tags.

(** The content of that field when no chunk of the tag was read: the zero
    version, the literal engine name, the empty text. *)
Definition info_default (t : tag) : Info.Version + string :=
  if decide (t = Info.tag_ifil ∨ t = Info.tag_iver)
  then inl (Info.mkVersion 0 0)
  else if decide (t = Info.tag_isng) then inr "EMU8000"%string
  else inr ""%string.

(** The ranges of the integer types. *)
Definition is_uint (w : Z) (v : Z) : Prop := 0 ≤ v < 2 ^ w.
Definition is_int (w : Z) (v : Z) : Prop := - 2 ^ (w - 1) ≤ v < 2 ^ (w - 1).

(** Records whose fields are values of their Go types. *)
Definition PresetHeader_typed (p : Hydra.PresetHeader) : Prop :=
  length (Hydra.PresetName p) = 20%nat
  ∧ is_uint 16 (Hydra.Preset p) ∧ is_uint 16 (Hydra.Bank p)
  ∧ is_uint 16 (Hydra.PresetBagNdx p) ∧ is_uint 32 (Hydra.Library p)
  ∧ is_uint 32 (Hydra.Genre p) ∧ is_uint 32 (Hydra.Morphology p).

Definition PBag_typed (b : Hydra.PBagRecord) : Prop :=
  is_uint 16 (Hydra.GenIndex b) ∧ is_uint 16 (Hydra.ModIndex b).

Definition Modulator_typed (m : Hydra.Modulator) : Prop :=
  is_uint 16 (Hydra.ModSrcOper m) ∧ is_uint 16 (Hydra.ModDestOper m)
  ∧ is_int 16 (Hydra.ModAmount m) ∧ is_uint 16 (Hydra.ModAmtSrcOper m)
  ∧ is_uint 16 (Hydra.ModTransOper m).

Definition Generator_typed (g : Hydra.Generator) : Prop :=
  is_uint 16 (Hydra.GenOper g) ∧ is_int 16 (Hydra.GenAmount g).

Definition Instrument_typed (i : Hydra.Instrument) : Prop :=
  length (Hydra.Name i) = 20%nat ∧ is_uint 16 (Hydra.InstBagNdx i).

Definition IBag_typed (b : Hydra.IBagRecord) : Prop :=
  is_uint 16 (Hydra.InstGenIndex b) ∧ is_uint 16 (Hydra.InstModIndex b).

Definition SampleHeader_typed (s : Hydra.SampleHeader) : Prop :=
  length (Hydra.SampleName s) = 20%nat
  ∧ is_uint 32 (Hydra.Start s) ∧ is_uint 32 (Hydra.End_ s)
  ∧ is_uint 32 (Hydra.Startloop s) ∧ is_uint 32 (Hydra.Endloop s)
  ∧ is_uint 32 (Hydra.SampleRate s) ∧ is_uint 8 (Hydra.OriginalPitch s)
  ∧ is_int 8 (Hydra.PitchCorrection s) ∧ is_uint 16 (Hydra.SampleLink s)
  ∧ is_uint 16 (Hydra.SampleType s).

Definition hydra_typed (h : Hydra.SoundFontHydra) : Prop :=
  Forall PresetHeader_typed (Hydra.Headers h)
  ∧ Forall PBag_typed (Hydra.PBag h)
  ∧ Forall Modulator_typed (Hydra.PresetModulators h)
  ∧ Forall Generator_typed (Hydra.PresetGenerators h)
  ∧ Forall Instrument_typed (Hydra.Instuments h)
  ∧ Forall IBag_typed (Hydra.IBag h)
  ∧ Forall Modulator_typed (Hydra.InstrumentModulators h)
  ∧ Forall Generator_typed (Hydra.InstrumentGenerators h)
  ∧ Forall SampleHeader_typed (Hydra.Samples h).

(** Every byte, in order. *)
Definition all_bytes : list byte :=
  (λ n, byte_of_Z (Z.of_nat n)) <$> seq 0 256.

(** Every value below 256, in order. *)
Definition below_256 : list Z := Z.of_nat <$> seq 0 256.

(** Reading a sample type back from its name: the eight names, and the
    digits between the brackets of any other text. *)
Definition uint_of_text (s : string) : Z :=
  match DecimalString.NilZero.uint_of_string s with
  | Some u => Z.of_N (N.of_uint u)
  | None => -1
  end.

Definition type_of_name (s : string) : Z :=
  if (s =? "Mono")%string then 1
  else if (s =? "Right")%string then 2
  else if (s =? "Left")%string then 4
  else if (s =? "Link")%string then 8
  else if (s =? "Rom_Mono")%string then 0x8001
  else if (s =? "Rom_Right")%string then 0x8002
  else if (s =? "Rom_Left")%string then 0x8004
  else if (s =? "Rom_Link")%string then 0x8008
  else uint_of_text (substring 8 (String.length s - 9) s).

(** *** Inputs used in examples *)

(** A generator chunk, an unknown chunk, and a chunk cut inside its
    payload. *)
Definition pgen_chunk : chunk := chunk_of Hydra.tag_pgen [x01; x02; x03; xff].
Definition junk_chunk : chunk :=
  chunk_of ("j", "u", "n", "k")%byte [x01; x02; x03].
Definition cut_chunk : list byte :=
  tag_bytes Hydra.tag_pgen ++ put_uint32 4 ++ [x01; x02].

(** A bank name twice. *)
Definition INAM_twice : list chunk :=
  [chunk_of Info.tag_ifil [x02; x00; x01; x00];
   chunk_of Info.tag_INAM [x41; x00];
   chunk_of Info.tag_INAM [x42; x00]].

(** The payloads of a small bank: version 2.1 and a name, two samples, nine
    empty hydra chunks. *)
Definition small_info : list byte := info_list ifil_and_INAM [].
Definition small_samples : list byte :=
  frame (chunk_of Samples.tag_smpl [x01; x00; x02; x00]).
Definition small_hydra : list byte := frames nine_empty.

End Shape.

(** * Facts *)

(** ** Bytes *)

(** Linear arithmetic with division and remainder by constants. *)
Ltac pow2_const :=
  change (2 ^ 7) with 128 in *; change (2 ^ 8) with 256 in *;
  change (2 ^ 15) with 32768 in *; change (2 ^ 16) with 65536 in *;
  change (2 ^ 24) with 16777216 in *; change (2 ^ 32) with 4294967296 in *.
Ltac divmod_lia := pow2_const; Z.to_euclidean_division_equations; lia.

Lemma byte_to_Z_range b : 0 ≤ byte_to_Z b < 256.
Proof.
  unfold byte_to_Z. pose proof (Byte.to_N_bounded b). lia.
Qed.

Lemma byte_of_to_Z b : byte_of_Z (byte_to_Z b) = b.
Proof.
  unfold byte_of_Z. pose proof (byte_to_Z_range b).
  rewrite Z.mod_small by lia. unfold byte_to_Z.
  rewrite N2Z.id, Byte.of_to_N. done.
Qed.

Lemma byte_to_of_Z v : byte_to_Z (byte_of_Z v) = v mod 256.
Proof.
  unfold byte_of_Z, byte_to_Z.
  pose proof (Z.mod_pos_bound v 256 ltac:(lia)) as Hv.
  destruct (Byte.of_N (Z.to_N (v mod 256))) as [b|] eqn:E; simpl.
  - apply Byte.to_of_N in E. rewrite E. lia.
  - apply Byte.of_N_None_iff in E. lia.
Qed.

Lemma byte_of_Z_mod v : byte_of_Z (v mod 256) = byte_of_Z v.
Proof. unfold byte_of_Z. by rewrite Z.mod_mod. Qed.

Lemma lor_shiftl_add x y n :
  0 ≤ n → 0 ≤ x < 2 ^ n → Z.lor x (Z.shiftl y n) = x + y * 2 ^ n.
Proof.
  intros Hn Hx. rewrite Z.shiftl_mul_pow2 by done.
  rewrite <- Z.lxor_lor, <- Z.add_nocarry_lxor; try done.
  all: rewrite <- Z.shiftl_mul_pow2 by done.
  all: apply Z.bits_inj'; intros i Hi; rewrite Z.land_spec, Z.bits_0.
  all: destruct (Z.lt_ge_cases i n).
  all: try (rewrite Z.shiftl_spec_low by done; apply andb_false_r).
  all: rewrite <- (Z.mod_small x (2 ^ n)) by done.
  all: rewrite Z.mod_pow2_bits_high by lia; done.
Qed.

Lemma le_uint16_add b0 b1 :
  le_uint16 b0 b1 = byte_to_Z b0 + 256 * byte_to_Z b1.
Proof.
  unfold le_uint16. pose proof (byte_to_Z_range b0).
  rewrite lor_shiftl_add by lia. lia.
Qed.

Lemma le_uint32_add b0 b1 b2 b3 :
  le_uint32 b0 b1 b2 b3 =
  byte_to_Z b0 + 256 * byte_to_Z b1 + 65536 * byte_to_Z b2
  + 16777216 * byte_to_Z b3.
Proof.
  unfold le_uint32.
  pose proof (byte_to_Z_range b0). pose proof (byte_to_Z_range b1).
  pose proof (byte_to_Z_range b2).
  rewrite (lor_shiftl_add _ _ 8) by lia.
  rewrite (lor_shiftl_add _ _ 16) by lia.
  rewrite (lor_shiftl_add _ _ 24) by lia. lia.
Qed.

Lemma le_uint16_range b0 b1 : 0 ≤ le_uint16 b0 b1 < 2 ^ 16.
Proof.
  rewrite le_uint16_add.
  pose proof (byte_to_Z_range b0). pose proof (byte_to_Z_range b1). lia.
Qed.

Lemma le_uint32_range b0 b1 b2 b3 : 0 ≤ le_uint32 b0 b1 b2 b3 < 2 ^ 32.
Proof.
  rewrite le_uint32_add.
  pose proof (byte_to_Z_range b0). pose proof (byte_to_Z_range b1).
  pose proof (byte_to_Z_range b2). pose proof (byte_to_Z_range b3). lia.
Qed.

(** Writing a decoded little-endian value gives the bytes back. *)
Lemma put_le_uint16 b0 b1 : Layout.put_uint16 (le_uint16 b0 b1) = [b0; b1].
Proof.
  unfold Layout.put_uint16. rewrite Z.shiftr_div_pow2 by lia.
  rewrite le_uint16_add.
  pose proof (byte_to_Z_range b0). pose proof (byte_to_Z_range b1).
  rewrite <- (byte_of_Z_mod (_ + _)).
  replace ((byte_to_Z b0 + 256 * byte_to_Z b1) mod 256) with (byte_to_Z b0)
    by divmod_lia.
  replace ((byte_to_Z b0 + 256 * byte_to_Z b1) / 2 ^ 8) with (byte_to_Z b1)
    by divmod_lia.
  by rewrite !byte_of_to_Z.
Qed.

Lemma put_le_uint32 b0 b1 b2 b3 :
  Layout.put_uint32 (le_uint32 b0 b1 b2 b3) = [b0; b1; b2; b3].
Proof.
  unfold Layout.put_uint32. rewrite !Z.shiftr_div_pow2 by lia.
  rewrite le_uint32_add.
  pose proof (byte_to_Z_range b0). pose proof (byte_to_Z_range b1).
  pose proof (byte_to_Z_range b2). pose proof (byte_to_Z_range b3).
  set (v := _ + _ + _ + _).
  rewrite <- (byte_of_Z_mod v), <- (byte_of_Z_mod (v / _)),
    <- (byte_of_Z_mod (v / 2 ^ 16)), <- (byte_of_Z_mod (v / 2 ^ 24)).
  replace (v mod 256) with (byte_to_Z b0) by (subst v; divmod_lia).
  replace ((v / 2 ^ 8) mod 256) with (byte_to_Z b1) by (subst v; divmod_lia).
  replace ((v / 2 ^ 16) mod 256) with (byte_to_Z b2) by (subst v; divmod_lia).
  replace ((v / 2 ^ 24) mod 256) with (byte_to_Z b3) by (subst v; divmod_lia).
  by rewrite !byte_of_to_Z.
Qed.

(** Reading back a written 32-bit value. *)
Lemma le_put_uint32 v :
  0 ≤ v < 2 ^ 32 →
  le_uint32 (byte_of_Z v) (byte_of_Z (Z.shiftr v 8))
            (byte_of_Z (Z.shiftr v 16)) (byte_of_Z (Z.shiftr v 24)) = v.
Proof.
  intros Hv.
  rewrite le_uint32_add, !byte_to_of_Z, !Z.shiftr_div_pow2 by lia.
  divmod_lia.
Qed.

Lemma uint16_int16 v : 0 ≤ v < 2 ^ 16 → uint16 (int16 v) = v.
Proof.
  unfold uint16, int16, to_unsigned, to_signed. simpl Z.sub. divmod_lia.
Qed.

Lemma uint8_int8 v : 0 ≤ v < 2 ^ 8 → to_unsigned 8 (int8 v) = v.
Proof. unfold int8, to_unsigned, to_signed. simpl Z.sub. divmod_lia. Qed.

Lemma shl_uint16_byte b : shl_uint16 (byte_to_Z b) 8 = Z.shiftl (byte_to_Z b) 8.
Proof.
  unfold shl_uint16, uint16, to_unsigned. pose proof (byte_to_Z_range b).
  rewrite Z.shiftl_mul_pow2 by lia. divmod_lia.
Qed.

Lemma lor_shl_uint16 b1 b0 :
  Z.lor (shl_uint16 (byte_to_Z b1) 8) (byte_to_Z b0) = le_uint16 b0 b1.
Proof. rewrite shl_uint16_byte, Z.lor_comm. done. Qed.

(** ** Readers and chunk framing *)

Import Chunk Layout.

Lemma ReadFull_app d rest :
  ReadFull (length d) (d ++ rest) = inr (d, rest).
Proof.
  destruct d as [|b d]; [done|].
  unfold ReadFull. cbn [length].
  rewrite bool_decide_eq_false_2 by done.
  rewrite bool_decide_eq_false_2 by (rewrite length_app; simpl; lia).
  change (S (length d)) with (length (b :: d)).
  by rewrite take_app_length, drop_app_length.
Qed.

Lemma ReadFull_inv n r d r' :
  ReadFull n r = inr (d, r') → r = d ++ r' ∧ length d = n.
Proof.
  unfold ReadFull. destruct n; [by intros [= <- <-]|].
  repeat case_bool_decide; intros [= <- <-].
  rewrite take_drop, length_take. split; [done|lia].
Qed.

(** [parse] reads back a framed chunk and leaves the rest of the input. *)
Lemma parse_frame ck rest :
  well_framed ck → parse (frame ck ++ rest) = inr (ck, rest).
Proof.
  intros [Hsz Hlt]. destruct ck as [[[[a b] c] d] sz dat]; simpl in *.
  unfold frame, parse. simpl. rewrite le_put_uint32 by lia.
  rewrite Hsz, Nat2Z.id, ReadFull_app. done.
Qed.

(** Whatever [parse] accepts is a framed chunk followed by the rest. *)
Lemma parse_inv r ck r' :
  parse r = inr (ck, r') → r = frame ck ++ r' ∧ well_framed ck.
Proof.
  unfold parse.
  destruct r as [|a [|b [|c [|d [|s0 [|s1 [|s2 [|s3 r]]]]]]]]; try done.
  simpl. destruct (ReadFull _ r) as [|[dat r3]] eqn:E; simpl; [done|].
  intros [= <- <-]. apply ReadFull_inv in E as [-> Hlen].
  pose proof (le_uint32_range s0 s1 s2 s3).
  unfold frame, well_framed. cbn [id size data]. rewrite put_le_uint32.
  split; [done|]. rewrite Hlen. lia.
Qed.

(** The only inputs on which [parse] reports [EOF]: nothing left, a tag and
    nothing else, or a tag and a non-zero length and nothing else. *)
Lemma parse_EOF r :
  parse r = inl EOF ↔
    r = [] ∨ (∃ t, r = tag_bytes t)
    ∨ (∃ ck, r = tag_bytes (id ck) ++ put_uint32 (size ck)
             ∧ 0 < size ck < 2 ^ 32).
Proof.
  split.
  - unfold parse.
    destruct r as [|a [|b [|c [|d r]]]]; try done; [by left|].
    destruct r as [|s0 [|s1 [|s2 [|s3 r]]]]; try done.
    { intros _. right; left. by exists (a, b, c, d). }
    simpl. pose proof (le_uint32_range s0 s1 s2 s3) as Hr.
    unfold ReadFull. destruct (Z.to_nat _) eqn:En; simpl; [done|].
    repeat case_bool_decide; try done. subst r. intros _.
    right; right. exists (mkChunk (a, b, c, d) (le_uint32 s0 s1 s2 s3) []).
    cbn [id size data]. rewrite put_le_uint32. split; [done|lia].
  - intros [->|[[[[[a b] c] d] ->]|[[[[[a b] c] d] sz dat] [-> Hsz]]]]; try done.
    simpl in *. unfold parse. simpl. rewrite le_put_uint32 by lia.
    unfold ReadFull. destruct (Z.to_nat sz) eqn:En; [lia|]. done.
Qed.

(** One turn of the loop. *)
Lemma chunk_loop_step {S} (body : chunk → S → result S) r s :
  chunk_loop body r s =
  match parse r with
  | inr (ck, r') =>
      match body ck s with
      | inr s' => chunk_loop body r' s'
      | inl err => inl err
      end
  | inl EOF => inr s
  | inl err => inl err
  end.
Proof.
  funelim (chunk_loop body r s).
  all: repeat match goal with H : parse _ = _ |- _ => rewrite H end.
  all: try done.
  all: repeat match goal with H : _ = inl _ |- _ => rewrite H
                         | H : _ = inr _ |- _ => rewrite H end.
  all: try done.
Qed.

Lemma chunk_loop_frames {S} (body : chunk → S → result S) cs tail s :
  Forall well_framed cs →
  chunk_loop body (frames cs ++ tail) s =
  s' ← run_chunks body cs s; chunk_loop body tail s'.
Proof.
  intros Hwf. revert s. induction Hwf as [|ck cs Hck _ IH]; intros s; [done|].
  unfold frames. rewrite fmap_cons. simpl. rewrite <- app_assoc.
  rewrite chunk_loop_step, parse_frame by done.
  destruct (body ck s) as [err|s']; [done|]. apply IH.
Qed.

Lemma chunk_loop_EOF {S} (body : chunk → S → result S) tail s :
  parse tail = inl EOF → chunk_loop body tail s = inr s.
Proof. intros H. by rewrite chunk_loop_step, H. Qed.

(** A loop that ran to its end read a list of framed chunks, and then a
    tail on which [parse] reported [EOF]. *)
Lemma chunk_loop_inv {S} (body : chunk → S → result S) r s s' :
  chunk_loop body r s = inr s' →
  ∃ cs tail, r = frames cs ++ tail ∧ Forall well_framed cs
             ∧ parse tail = inl EOF ∧ run_chunks body cs s = inr s'.
Proof.
  remember (length r) as n eqn:Hn. revert r s Hn.
  induction n as [n IH] using lt_wf_ind. intros r s -> Hloop.
  rewrite chunk_loop_step in Hloop.
  destruct (parse r) as [err|[ck r']] eqn:Hp.
  - destruct err; try done. injection Hloop as <-.
    exists [], r. by repeat split.
  - destruct (body ck s) as [err|s1] eqn:Hb; [done|].
    pose proof (parse_length _ _ _ Hp) as Hlt.
    apply parse_inv in Hp as [-> Hwf].
    destruct (IH _ Hlt r' s1 eq_refl Hloop) as (cs & tail & -> & Hcs & Ht & Hrun).
    exists (ck :: cs), tail. repeat split; try done.
    + unfold frames. rewrite fmap_cons. simpl. by rewrite <- app_assoc.
    + by constructor.
    + simpl. by rewrite Hb.
Qed.

(** ** Filling a slice *)

Lemma mapM_cons {A B} (f : A → result B) x l :
  mapM f (x :: l) = y ← f x; k ← mapM f l; inr (y :: k).
Proof. done. Qed.

Lemma mapM_fmap_S {A} (f : nat → result A) l :
  mapM f (S <$> l) = mapM (f ∘ S) l.
Proof.
  induction l as [|x l IH]; [done|].
  by rewrite fmap_cons, !mapM_cons, IH.
Qed.

Lemma fill_S {A} n (f : nat → result A) :
  fill (S n) f = x ← f 0%nat; xs ← fill n (f ∘ S); inr (x :: xs).
Proof.
  unfold fill. change (seq 0 (S n)) with (0%nat :: seq 1 n).
  rewrite <- fmap_S_seq.
  by rewrite mapM_cons, mapM_fmap_S.
Qed.

Lemma fill_ext {A} n (f g : nat → result A) :
  (∀ i, (i < n)%nat → f i = g i) → fill n f = fill n g.
Proof.
  revert f g. induction n as [|n IH]; intros f g Hfg; [done|].
  rewrite !fill_S, Hfg by lia.
  rewrite (IH (f ∘ S) (g ∘ S)); [done|]. intros i Hi. apply Hfg. lia.
Qed.

(** A loop whose every turn succeeds fills the whole slice. *)
Lemma fill_ok {A} n (f : nat → result A) (g : nat → A) :
  (∀ i, (i < n)%nat → f i = inr (g i)) → fill n f = inr (g <$> seq 0 n).
Proof.
  revert f g. induction n as [|n IH]; intros f g Hfg; [done|].
  rewrite fill_S, Hfg by lia. simpl.
  rewrite (IH (f ∘ S) (g ∘ S)) by (intros i Hi; apply Hfg; lia).
  simpl. by rewrite <- fmap_S_seq, <- list_fmap_compose.
Qed.

Lemma index_ok data (i : nat) :
  (i < length data)%nat → index data i = inr (data !!! i).
Proof.
  intros Hi. unfold index.
  destruct (lookup_lt_is_Some_2 data i Hi) as [b Hb].
  rewrite Hb. by rewrite (list_lookup_total_correct _ _ _ Hb).
Qed.

(** A loop that decodes groups of [w] bytes by index, and an encoder that
    inverts each turn, invert each other on a payload of [n] groups. *)
Lemma fill_round_trip {A} (w : nat) (f : list byte → nat → result A)
    (enc : A → list byte) :
  (∀ d data i, length d = w → f (d ++ data) (S i) = f data i) →
  (∀ d data, length d = w → ∃ x, f (d ++ data) 0%nat = inr x ∧ enc x = d) →
  ∀ n data, length data = (n * w)%nat →
  ∃ v, fill n (f data) = inr v ∧ length v = n ∧ concat (enc <$> v) = data.
Proof.
  intros Hshift Hhead. induction n as [|n IH]; intros data Hlen.
  - destruct data; [|done]. by exists [].
  - rewrite <- (take_drop w data).
    assert (length (take w data) = w) as Hw by (rewrite length_take; lia).
    destruct (Hhead _ (drop w data) Hw) as (x & Hx & Hex).
    destruct (IH (drop w data)) as (v & Hv & Hlv & Hev).
    { rewrite length_drop. lia. }
    exists (x :: v). split; [|split].
    + rewrite fill_S, Hx. simpl.
      rewrite (fill_ext n _ (f (drop w data))) by (intros; by apply Hshift).
      by rewrite Hv.
    + simpl. by rewrite Hlv.
    + by rewrite fmap_cons, concat_cons, Hex, Hev.
Qed.

(** ** [binary.Read] in a loop *)

Import Hydra.

Lemma read_records_round_trip {A} (sz : nat) (dec : decoder A)
    (enc : A → list byte) :
  (0 < sz)%nat →
  (∀ d, length d = sz → ∃ x rest, dec d = Some (x, rest) ∧ enc x = d) →
  ∀ n data, length data = (n * sz)%nat →
  ∃ v, read_records sz dec n data = inr v ∧ length v = n
       ∧ concat (enc <$> v) = data.
Proof.
  intros Hsz Hdec. induction n as [|n IH]; intros data Hlen.
  - destruct data; [|done]. by exists [].
  - rewrite <- (take_drop sz data).
    assert (length (take sz data) = sz) as Hw by (rewrite length_take; lia).
    destruct (Hdec _ Hw) as (x & rest & Hx & Hex).
    destruct (IH (drop sz data)) as (v & Hv & Hlv & Hev).
    { rewrite length_drop. lia. }
    exists (x :: v). split; [|split].
    + cbn [read_records]. unfold binary_Read.
      rewrite <- Hw at 1. rewrite ReadFull_app. simpl. rewrite Hx. simpl.
      by rewrite Hv.
    + simpl. by rewrite Hlv.
    + by rewrite fmap_cons, concat_cons, Hex, Hev.
Qed.

(** ** The seven record shapes *)

Local Arguments le_uint16 : simpl never.
Local Arguments le_uint32 : simpl never.
Local Arguments byte_to_Z : simpl never.
Local Arguments byte_of_Z : simpl never.
Local Arguments put_uint16 : simpl never.
Local Arguments put_uint32 : simpl never.
Local Arguments int16 : simpl never.
Local Arguments uint16 : simpl never.
Local Arguments int8 : simpl never.
Local Arguments to_unsigned : simpl never.
Local Arguments shl_uint16 : simpl never.

Tactic Notation "explode" ident(d) integer(n) :=
  do n (destruct d as [|? d]; [done|]); destruct d; [|done].

Ltac fields :=
  cbn [PresetName Preset Bank PresetBagNdx Library Genre Morphology
       GenIndex ModIndex ModSrcOper ModDestOper ModAmount ModAmtSrcOper
       ModTransOper GenOper GenAmount Name InstBagNdx InstGenIndex
       InstModIndex SampleName Start End_ Startloop Endloop SampleRate
       OriginalPitch PitchCorrection SampleLink SampleType].

Ltac put_get :=
  fields; rewrite ?lor_shl_uint16;
  rewrite ?uint16_int16 by apply le_uint16_range;
  rewrite ?uint8_int8 by apply byte_to_Z_range;
  rewrite ?put_le_uint16, ?put_le_uint32;
  unfold put_uint8; rewrite ?byte_of_to_Z.

Lemma PresetHeader_round_trip d :
  length d = size_PresetHeader →
  ∃ x rest, dec_PresetHeader d = Some (x, rest) ∧ enc_PresetHeader x = d.
Proof.
  intros Hd. explode d 38.
  eexists _, _. split; [reflexivity|].
  unfold enc_PresetHeader. put_get. done.
Qed.

Lemma Modulator_round_trip d :
  length d = size_Modulator →
  ∃ x rest, dec_Modulator d = Some (x, rest) ∧ enc_Modulator x = d.
Proof.
  intros Hd. explode d 10.
  eexists _, _. split; [reflexivity|].
  unfold enc_Modulator. put_get. done.
Qed.

Lemma Generator_round_trip d :
  length d = size_Generator →
  ∃ x rest, dec_Generator d = Some (x, rest) ∧ enc_Generator x = d.
Proof.
  intros Hd. explode d 4.
  eexists _, _. split; [reflexivity|].
  unfold enc_Generator. put_get. done.
Qed.

Lemma Instrument_round_trip d :
  length d = size_Instrument →
  ∃ x rest, dec_Instrument d = Some (x, rest) ∧ enc_Instrument x = d.
Proof.
  intros Hd. explode d 22.
  eexists _, _. split; [reflexivity|].
  unfold enc_Instrument. put_get. done.
Qed.

Lemma SampleHeader_round_trip d :
  length d = size_SampleHeader →
  ∃ x rest, dec_SampleHeader d = Some (x, rest) ∧ enc_SampleHeader x = d.
Proof.
  intros Hd. explode d 46.
  eexists _, _. split; [reflexivity|].
  unfold enc_SampleHeader. put_get. done.
Qed.

Lemma pbag_record_shift d data i :
  length d = 4%nat → pbag_record (d ++ data) (S i) = pbag_record data i.
Proof.
  intros Hd. explode d 4. unfold pbag_record.
  replace (4 * S i)%nat with (S (S (S (S (4 * i))))) by lia. done.
Qed.

Lemma pbag_record_head d data :
  length d = 4%nat →
  ∃ x, pbag_record (d ++ data) 0 = inr x ∧ enc_PBag x = d.
Proof.
  intros Hd. explode d 4. eexists. split; [reflexivity|].
  unfold enc_PBag. put_get. done.
Qed.

Lemma ibag_record_shift d data i :
  length d = 4%nat → ibag_record (d ++ data) (S i) = ibag_record data i.
Proof.
  intros Hd. explode d 4. unfold ibag_record.
  replace (4 * S i)%nat with (S (S (S (S (4 * i))))) by lia. done.
Qed.

Lemma ibag_record_head d data :
  length d = 4%nat →
  ∃ x, ibag_record (d ++ data) 0 = inr x ∧ enc_IBag x = d.
Proof.
  intros Hd. explode d 4. eexists. split; [reflexivity|].
  unfold enc_IBag. put_get. done.
Qed.

(** ** The hydra decoder *)

Lemma classify_field_tag f : classify (field_tag f) = Some f.
Proof. by destruct f. Qed.

Lemma classify_Some t f : classify t = Some f → t = field_tag f.
Proof.
  unfold classify. intros H. apply find_some in H as [_ H].
  by apply bool_decide_eq_true_1 in H.
Qed.

Lemma classify_None t f : classify t = None → field_tag f ≠ t.
Proof.
  unfold classify. intros H Heq.
  assert (In f hydra_fields) as Hin by (destruct f; simpl; tauto).
  pose proof (find_none _ _ H f Hin) as Hf. simpl in Hf.
  by rewrite bool_decide_eq_true_2 in Hf.
Qed.

Lemma field_tag_inj f g : field_tag f = field_tag g → f = g.
Proof.
  intros H. apply (f_equal classify) in H.
  rewrite !classify_field_tag in H. by injection H.
Qed.

Lemma same_field_refl f h : same_field f h h.
Proof. by destruct f. Qed.

Lemma same_field_trans f h1 h2 h3 :
  same_field f h1 h2 → same_field f h2 h3 → same_field f h1 h3.
Proof. destruct f; simpl; congruence. Qed.

Lemma same_field_length f h1 h2 :
  same_field f h1 h2 → field_length f h1 = field_length f h2.
Proof. destruct f; simpl; congruence. Qed.

Lemma same_field_encode f h1 h2 :
  same_field f h1 h2 → encode_field f h1 = encode_field f h2.
Proof. destruct f; simpl; congruence. Qed.

(** The payload of a well-sized chunk is a whole number of records. *)
Lemma whole_records ck (w : Z) (sz : nat) :
  size ck = Z.of_nat (length (data ck)) →
  Z.of_nat sz = w → (0 < sz)%nat → size ck mod w = 0 →
  length (data ck) = (Z.to_nat (size ck / w) * sz)%nat.
Proof.
  intros Hsz <- Hpos Hmod. apply Nat2Z.inj. rewrite <- Hsz.
  rewrite Nat2Z.inj_mul, Z2Nat.id by (apply Z.div_pos; lia).
  apply Z.div_exact in Hmod; lia.
Qed.

Ltac switch_to ck Hid :=
  unfold hydra_switch; rewrite Hid;
  repeat (rewrite bool_decide_eq_false_2 by done);
  rewrite (bool_decide_eq_true_2 (_ = _)) by done.

Ltac switch_with Hround upd :=
  let v := fresh "v" in
  let Hv := fresh "Hv" in
  let Hlen := fresh "Hlen" in
  let Henc := fresh "Henc" in
  destruct Hround as (v & Hv & Hlen & Henc);
  exists (upd v); split; [|split; [|split; [|split]]];
  [ intros s; unfold newReader; rewrite Hv; done
  | done | done
  | intros s g Hg; destruct g; done
  | done ].

Ltac switch_records ck Hwf Hmod w sz lem upd :=
  let Hwhole := fresh "Hwhole" in
  assert (length (data ck) = (Z.to_nat (size ck / w) * sz)%nat) as Hwhole
    by (apply (whole_records ck w sz); first [done | cbv; lia]);
  switch_with
    (read_records_round_trip sz _ _ ltac:(cbv; lia) lem _ _ Hwhole) upd.

Ltac switch_fill ck Hwf Hmod shift head upd :=
  let Hwhole := fresh "Hwhole" in
  assert (length (data ck) = (Z.to_nat (size ck / 4) * 4)%nat) as Hwhole
    by (apply (whole_records ck 4 4); first [done | lia]);
  switch_with (fill_round_trip 4 _ _ shift head _ _ Hwhole) upd.

(** What the switch does with a chunk of one of the nine tags: a payload
    that is not a whole number of records is an error; otherwise the array
    of that tag is replaced by the decoded records, which re-encode to the
    payload, and the other arrays are left alone. *)
Lemma hydra_switch_field f ck :
  id ck = field_tag f → size ck = Z.of_nat (length (data ck)) →
  if decide (size ck mod field_width f = 0) then
    ∃ upd : SoundFontHydra → SoundFontHydra,
      (∀ s, hydra_switch ck s = inr (upd s))
      ∧ (∀ s, field_length f (upd s) = Z.to_nat (size ck / field_width f))
      ∧ (∀ s, encode_field f (upd s) = data ck)
      ∧ (∀ s g, g ≠ f → same_field g (upd s) s)
      ∧ (∀ s1 s2, same_field f (upd s1) (upd s2))
  else ∃ what, ∀ s, hydra_switch ck s = inl (ErrInvalidSize what (size ck)).
Proof.
  intros Hid Hwf. case_decide as Hmod.
  - destruct f; simpl in Hmod; switch_to ck Hid;
      rewrite bool_decide_eq_false_2 by (intros ?; done).
    + switch_records ck Hwf Hmod 38 size_PresetHeader PresetHeader_round_trip set_Headers.
    + switch_fill ck Hwf Hmod pbag_record_shift pbag_record_head set_PBag.
    + switch_records ck Hwf Hmod 10 size_Modulator Modulator_round_trip set_PresetModulators.
    + switch_records ck Hwf Hmod 4 size_Generator Generator_round_trip set_PresetGenerators.
    + switch_records ck Hwf Hmod 22 size_Instrument Instrument_round_trip set_Instuments.
    + switch_fill ck Hwf Hmod ibag_record_shift ibag_record_head set_IBag.
    + switch_records ck Hwf Hmod 10 size_Modulator Modulator_round_trip set_InstrumentModulators.
    + switch_records ck Hwf Hmod 4 size_Generator Generator_round_trip set_InstrumentGenerators.
    + switch_records ck Hwf Hmod 46 size_SampleHeader SampleHeader_round_trip set_Samples.
  - destruct f; simpl in Hmod; switch_to ck Hid;
      rewrite bool_decide_eq_true_2 by done; eexists; done.
Qed.

(** *** The map of seen tags *)

Lemma pdtaChunks_init_lookup t :
  pdtaChunks_init !! t = (λ _, false) <$> classify t.
Proof.
  destruct (classify t) as [f|] eqn:E.
  - apply classify_Some in E as ->. by destruct f.
  - pose proof (λ f, classify_None t f E) as Hne.
    pose proof (Hne Fphdr). pose proof (Hne Fpbag). pose proof (Hne Fpmod).
    pose proof (Hne Fpgen). pose proof (Hne Finst). pose proof (Hne Fibag).
    pose proof (Hne Fimod). pose proof (Hne Figen). pose proof (Hne Fshdr).
    unfold pdtaChunks_init. simpl in *.
    rewrite !lookup_insert_ne by done. done.
Qed.

Lemma mark_lookup m ck t :
  mark m ck !! t =
  match m !! t with
  | Some b => Some (b || bool_decide (id ck = t))
  | None => None
  end.
Proof.
  unfold mark. destruct (decide (id ck = t)) as [<-|Hne].
  - destruct (m !! id ck) as [b|] eqn:E; rewrite ?E; [|done].
    rewrite lookup_insert_eq, bool_decide_eq_true_2 by done.
    by rewrite orb_true_r.
  - rewrite (bool_decide_eq_false_2 _ Hne).
    destruct (m !! id ck); rewrite ?lookup_insert_ne by done;
      destruct (m !! t); by rewrite ?orb_false_r.
Qed.

Lemma foldl_mark_lookup cs m t :
  foldl mark m cs !! t =
  match m !! t with
  | Some b => Some (b || bool_decide (t ∈ id <$> cs))
  | None => None
  end.
Proof.
  revert m. induction cs as [|ck cs IH]; intros m; simpl.
  - destruct (m !! t); [|done]. by rewrite orb_false_r.
  - rewrite IH, mark_lookup. destruct (m !! t) as [b|]; [|done].
    f_equal. rewrite <- orb_assoc. f_equal.
    apply eq_true_iff_eq. rewrite orb_true_iff, !bool_decide_eq_true.
    rewrite elem_of_cons.
    split; (intros [?|?]; [left; done|right; done]).
Qed.

(** The seen tags after the chunks [cs]: the nine keys, each true exactly
    when a chunk of [cs] carries it. *)
Lemma seen_lookup cs t :
  foldl mark pdtaChunks_init cs !! t =
  (λ _, bool_decide (t ∈ id <$> cs)) <$> classify t.
Proof.
  rewrite foldl_mark_lookup, pdtaChunks_init_lookup.
  by destruct (classify t).
Qed.

Lemma nine_keys_init : nine_keys pdtaChunks_init.
Proof.
  intros t. rewrite pdtaChunks_init_lookup. by rewrite fmap_is_Some.
Qed.

Lemma nine_keys_mark m ck : nine_keys m → nine_keys (mark m ck).
Proof.
  intros Hm t. rewrite mark_lookup. specialize (Hm t).
  destruct (m !! t); [|done]. rewrite <- Hm. split; eauto.
Qed.

Lemma first_missing_Some order m t :
  first_missing order m = Some t → t ∈ order ∧ m !! t = Some false.
Proof.
  induction order as [|ck order IH]; simpl; [done|].
  destruct (m !! ck) as [[]|] eqn:E.
  - intros H. destruct (IH H). split; [by right|done].
  - intros [= <-]. split; [by left|done].
  - intros H. destruct (IH H). split; [by right|done].
Qed.

Lemma first_missing_None order m :
  first_missing order m = None ↔ ∀ t, t ∈ order → m !! t ≠ Some false.
Proof.
  induction order as [|ck order IH]; simpl.
  { split; [|done]. intros _ t Ht. by apply elem_of_nil in Ht. }
  destruct (m !! ck) as [[]|] eqn:E.
  - rewrite IH. split; intros H t Ht.
    + apply elem_of_cons in Ht as [->|Ht]; [congruence|by apply H].
    + apply H. by right.
  - split; [done|]. intros H. exfalso. apply (H ck); [by left|done].
  - rewrite IH. split; intros H t Ht.
    + apply elem_of_cons in Ht as [->|Ht]; [congruence|by apply H].
    + apply H. by right.
Qed.

(** *** One turn and a whole list *)

Lemma hydra_chunk_spec ck s m :
  nine_keys m → well_framed ck →
  match classify (id ck) with
  | None => hydra_chunk ck (s, m) = inr (s, m) ∧ mark m ck = m
  | Some f =>
      if decide (size ck mod field_width f = 0) then
        ∃ s', hydra_chunk ck (s, m) = inr (s', mark m ck)
              ∧ (∀ g, g ≠ f → same_field g s' s)
              ∧ ∃ h, hydra_switch ck empty_hydra = inr h ∧ same_field f s' h
      else ∃ what, hydra_chunk ck (s, m) = inl (ErrInvalidSize what (size ck))
  end.
Proof.
  intros Hm Hwf. unfold hydra_chunk, mark.
  destruct (classify (id ck)) as [f|] eqn:E.
  - destruct (proj2 (Hm (id ck))) as [b Hb]; [by rewrite E|]. rewrite Hb.
    apply classify_Some in E.
    pose proof (hydra_switch_field f ck E (proj1 Hwf)) as Hsw.
    case_decide.
    + destruct Hsw as (upd & Hupd & _ & _ & Hother & Hsame).
      exists (upd s). rewrite Hupd. eauto 10.
    + destruct Hsw as [what Hwhat]. exists what. by rewrite Hwhat.
  - destruct (m !! id ck) as [b|] eqn:Hb; [|done].
    assert (is_Some (classify (id ck))) as [? ?] by (apply Hm; eauto).
    congruence.
Qed.

Lemma run_chunks_cons {S} (body : chunk → S → result S) ck cs s :
  run_chunks body (ck :: cs) s = s' ← body ck s; run_chunks body cs s'.
Proof. done. Qed.

Lemma last_with_cons t ck cs :
  last_with t (ck :: cs) =
  match last_with t cs with
  | Some c => Some c
  | None => if decide (id ck = t) then Some ck else None
  end.
Proof.
  unfold last_with. rewrite filter_cons. case_decide.
  - rewrite last_cons. by destruct (last _).
  - by destruct (last _).
Qed.

Lemma last_with_Some t ck cs :
  last_with t cs = Some ck → ck ∈ cs ∧ id ck = t.
Proof.
  unfold last_with. intros H%last_Some_elem_of.
  by apply list_elem_of_filter in H as [? ?].
Qed.

Lemma last_with_None t cs : last_with t cs = None ↔ t ∉ id <$> cs.
Proof.
  unfold last_with. rewrite last_None. split.
  - intros H (ck & -> & Hin)%list_elem_of_fmap.
    assert (ck ∈ filter (λ c : chunk, id c = id ck) cs) as Hf
      by (by apply list_elem_of_filter).
    rewrite H in Hf. by apply not_elem_of_nil in Hf.
  - intros H. apply elem_of_nil_inv. intros ck [Hid Hin]%list_elem_of_filter.
    apply H, list_elem_of_fmap. eauto.
Qed.

(** The loop body over a list of framed chunks.  When every chunk of a known
    tag holds whole records, it ends with each array holding the records of
    the last chunk of its tag (or untouched, without such a chunk);
    otherwise it stops at the first chunk that does not. *)
Lemma run_hydra_spec cs :
  Forall well_framed cs → ∀ s m, nine_keys m →
  if decide (Forall well_sized cs) then
    ∃ s', run_chunks hydra_chunk cs (s, m) = inr (s', foldl mark m cs)
          ∧ ∀ f, match last_with (field_tag f) cs with
                 | Some ck => ∃ h, hydra_switch ck empty_hydra = inr h
                                   ∧ same_field f s' h
                 | None => same_field f s' s
                 end
  else
    ∃ what ck, ck ∈ cs ∧ ¬ well_sized ck
               ∧ run_chunks hydra_chunk cs (s, m)
                 = inl (ErrInvalidSize what (size ck)).
Proof.
  induction 1 as [|ck cs Hwf _ IH]; intros s m Hm.
  - rewrite decide_True by constructor.
    exists s. split; [done|]. intros f. apply same_field_refl.
  - pose proof (hydra_chunk_spec ck s m Hm Hwf) as Hck.
    assert (well_sized ck ∨ ¬ well_sized ck) as [Hsz|Hsz]
      by (destruct (decide (well_sized ck)); eauto).
    + assert (∃ s1, hydra_chunk ck (s, m) = inr (s1, mark m ck)
                ∧ ∀ f, if decide (id ck = field_tag f)
                       then ∃ h, hydra_switch ck empty_hydra = inr h
                                 ∧ same_field f s1 h
                       else same_field f s1 s) as (s1 & Hs1 & Hf1).
      { unfold well_sized in Hsz.
        destruct (classify (id ck)) as [f|] eqn:E.
        - rewrite decide_True in Hck by done.
          destruct Hck as (s1 & Hs1 & Hother & Hthis).
          exists s1. split; [done|]. intros g.
          apply classify_Some in E.
          destruct (decide (id ck = field_tag g)) as [Hg|Hg].
          + rewrite E in Hg. by apply field_tag_inj in Hg as <-.
          + apply Hother. congruence.
        - destruct Hck as [Hs1 Hmk]. exists s. rewrite Hmk.
          split; [done|]. intros g.
          rewrite decide_False by (intros Hg; by apply (classify_None _ g E)).
          apply same_field_refl. }
      specialize (IH s1 (mark m ck) (nine_keys_mark _ _ Hm)).
      destruct (decide (Forall well_sized cs)) as [Hall|Hnot].
      * rewrite decide_True by (by constructor).
        destruct IH as (s' & Hrun & Hf).
        exists s'. split; [by rewrite run_chunks_cons, Hs1|].
        intros f. rewrite last_with_cons.
        specialize (Hf f). specialize (Hf1 f).
        destruct (last_with (field_tag f) cs); [done|].
        destruct (decide (id ck = field_tag f)).
        -- destruct Hf1 as (h & Hh & Hsame). exists h. split; [done|].
           by eapply same_field_trans.
        -- by eapply same_field_trans.
      * rewrite decide_False by (by inversion 1).
        destruct IH as (what & c & Hin & Hbad & Hrun).
        exists what, c. split; [by right|]. split; [done|].
        by rewrite run_chunks_cons, Hs1.
    + rewrite decide_False by (by inversion 1).
      unfold well_sized in Hsz.
      destruct (classify (id ck)) as [f|] eqn:E; [|done].
      rewrite decide_False in Hck by done. destruct Hck as [what Hwhat].
      exists what, ck. split; [by left|]. split.
      { unfold well_sized. by rewrite E. }
      by rewrite run_chunks_cons, Hwhat.
Qed.

(** [ReadSoundFontHydra] on a list of framed chunks and a tail on which
    [parse] reports [EOF]. *)
Lemma ReadSoundFontHydra_frames order cs tail :
  Forall well_framed cs → parse tail = inl EOF →
  ReadSoundFontHydra order (frames cs ++ tail) =
  '(s, m) ← run_chunks hydra_chunk cs (empty_hydra, pdtaChunks_init);
  match first_missing order m with
  | Some ck => inl (ErrMissingChunk ck)
  | None => inr s
  end.
Proof.
  intros Hwf Htail. unfold ReadSoundFontHydra.
  rewrite chunk_loop_frames by done.
  destruct (run_chunks _ _ _) as [err|[s m]]; [done|]. simpl.
  by rewrite chunk_loop_EOF.
Qed.

(** Every input that [ReadSoundFontHydra] accepts is such a list. *)
Lemma ReadSoundFontHydra_inv order r h :
  ReadSoundFontHydra order r = inr h →
  ∃ cs tail, r = frames cs ++ tail ∧ Forall well_framed cs
             ∧ parse tail = inl EOF.
Proof.
  unfold ReadSoundFontHydra.
  destruct (chunk_loop _ _ _) as [err|[s m]] eqn:E; [done|]. intros _.
  apply chunk_loop_inv in E as (cs & tail & ? & ? & ? & _). eauto.
Qed.

(** With every key visited, [first_missing] finds a missing tag exactly
    when one of the nine tags is carried by no chunk. *)
Lemma first_missing_seen order cs :
  order ≡ₚ hydra_tags →
  match first_missing order (foldl mark pdtaChunks_init cs) with
  | Some t => t ∈ hydra_tags ∧ t ∉ id <$> cs
  | None => ∀ t, t ∈ hydra_tags → t ∈ id <$> cs
  end.
Proof.
  intros Hperm. destruct (first_missing _ _) as [t|] eqn:E.
  - apply first_missing_Some in E as [Hin Hlk]. rewrite Hperm in Hin.
    split; [done|]. rewrite seen_lookup in Hlk.
    destruct (classify t); [|done]. simpl in Hlk.
    injection Hlk as Hlk. by apply bool_decide_eq_false_1 in Hlk.
  - intros t Ht. rewrite first_missing_None in E.
    rewrite <- Hperm in Ht. specialize (E t Ht).
    rewrite Hperm in Ht. apply list_elem_of_fmap in Ht as (f & -> & _).
    rewrite seen_lookup, classify_field_tag in E. simpl in E.
    destruct (decide (field_tag f ∈ id <$> cs)) as [|Hn]; [done|].
    by rewrite (bool_decide_eq_false_2 _ Hn) in E.
Qed.

(** ** The sample decoder *)

Import Samples.

(** A value shifted left by eight at type [int16] has a zero low byte, and
    so has the bitwise or of two such values. *)
Lemma shl_int16_low_byte_zero x : shl_int16 x 8 mod 256 = 0.
Proof.
  unfold shl_int16, int16, to_signed. rewrite Z.shiftl_mul_pow2 by lia.
  simpl Z.sub. divmod_lia.
Qed.

Lemma lor_low_byte_zero a b :
  a mod 256 = 0 → b mod 256 = 0 → Z.lor a b mod 256 = 0.
Proof.
  intros Ha Hb. change 256 with (2 ^ 8) in *.
  rewrite <- Z.land_ones in * by lia. apply Z.bits_inj'. intros i Hi.
  apply (f_equal (λ v, Z.testbit v i)) in Ha, Hb.
  rewrite Z.land_spec, Z.bits_0 in *. rewrite Z.lor_spec.
  destruct (Z.testbit (Z.ones 8) i); [|by rewrite andb_false_r].
  rewrite andb_true_r in *. by rewrite Ha, Hb.
Qed.

Lemma expect_frame ck rest :
  well_framed ck → expect (frame ck ++ rest) (id ck) = inr (ck, rest).
Proof.
  intros Hwf. unfold expect. rewrite parse_frame by done. simpl.
  by rewrite bool_decide_eq_false_2 by (intros H; by apply H).
Qed.

(** The sixteen-bit loop succeeds on every pair of bytes of the payload. *)
Lemma fill_sample_higher data n :
  (2 * n ≤ length data)%nat →
  fill n (sample_higher data) =
  inr ((λ i, Z.lor (shl_int16 (int16 (byte_to_Z (data !!! (i * 2 + 1)%nat))) 8)
                   (shl_int16 (int16 (byte_to_Z (data !!! (i * 2)%nat))) 8))
       <$> seq 0 n).
Proof.
  intros Hn. apply fill_ok. intros i Hi. unfold sample_higher.
  rewrite !index_ok by lia. done.
Qed.

(** The eight-bit loop converts the payload byte by byte. *)
Lemma fill_sample_lower data :
  fill (length data) (sample_lower data) =
  inr ((λ b, int8 (byte_to_Z b)) <$> data).
Proof.
  induction data as [|b data IH]; [done|].
  cbn [length]. rewrite fill_S. simpl.
  rewrite (fill_ext _ _ (sample_lower data)) by done.
  by rewrite IH.
Qed.

Lemma half_length (n : nat) : Z.to_nat (Z.of_nat n / 2) = (n / 2)%nat.
Proof.
  change 2 with (Z.of_nat 2). by rewrite <- Nat2Z.inj_div, Nat2Z.id.
Qed.

Lemma chunk_of_well_framed t d :
  Z.of_nat (length d) < 2 ^ 32 → well_framed (chunk_of t d).
Proof. by split. Qed.

(** [ReadSoundFontSamples] after a framed smpl chunk: the samples of the
    payload, and then whatever the second [expect] makes of the rest. *)
Lemma ReadSoundFontSamples_smpl d rest :
  Z.of_nat (length d) < 2 ^ 32 →
  ReadSoundFontSamples (frame (chunk_of tag_smpl d) ++ rest) =
  match expect rest tag_sm24 with
  | inl err =>
      if bool_decide (err = EOF) then inr (mkSamples (higher_of d) [])
      else inl err
  | inr (sm24Header, _) =>
      lower ← fill (Z.to_nat (size sm24Header))
                   (sample_lower (data sm24Header));
      inr (mkSamples (higher_of d) lower)
  end.
Proof.
  intros Hd. unfold ReadSoundFontSamples.
  rewrite (expect_frame (chunk_of tag_smpl d))
    by (by apply chunk_of_well_framed).
  cbn [mbind result_bind chunk_of size data]. rewrite half_length.
  rewrite fill_sample_higher
    by (pose proof (Nat.Div0.mul_div_le (length d) 2); lia).
  reflexivity.
Qed.

(** The same with an sm24 chunk next. *)
Lemma ReadSoundFontSamples_sm24 d1 d2 rest :
  Z.of_nat (length d1) < 2 ^ 32 → Z.of_nat (length d2) < 2 ^ 32 →
  ReadSoundFontSamples
    (frame (chunk_of tag_smpl d1) ++ frame (chunk_of tag_sm24 d2) ++ rest)
  = inr (mkSamples (higher_of d1) (lower_of d2)).
Proof.
  intros Hd1 Hd2. rewrite ReadSoundFontSamples_smpl by done.
  rewrite (expect_frame (chunk_of tag_sm24 d2))
    by (by apply chunk_of_well_framed).
  cbn [chunk_of size data]. by rewrite Nat2Z.id, fill_sample_lower.
Qed.

(** ** The info decoder *)

Import Info.

Lemma infoChunks_init_lookup t :
  infoChunks_init !! t =
  if bool_decide (t ∈ info_tags) then Some false else None.
Proof.
  case_bool_decide as Hin.
  - unfold info_tags in Hin.
    repeat (apply elem_of_cons in Hin as [->|Hin]; [done|]).
    by apply elem_of_nil in Hin.
  - unfold infoChunks_init.
    rewrite !lookup_insert_ne
      by (intros <-; apply Hin; unfold info_tags; set_solver).
    done.
Qed.

Lemma version_of_ok d :
  length d = 4%nat → ∃ v, version_of d = inr v.
Proof. intros Hd. explode d 4. eexists. reflexivity. Qed.

Lemma info_switch_ok ck info :
  well_framed ck → info_size_ok ck → ∃ info', info_switch ck info = inr info'.
Proof.
  intros [Hsz _] (H4 & H64k & H256). unfold info_switch.
  repeat (case_bool_decide as Hid;
    [ try (specialize (H4 ltac:(rewrite Hid; repeat constructor)));
      try (specialize (H64k Hid));
      try (specialize (H256 ltac:(rewrite Hid; repeat constructor)));
      case_bool_decide as Hbad; [exfalso; lia|];
      try (edestruct (version_of_ok (data ck)) as [v ->]; [lia|]);
      simpl; eauto
    | clear Hid ]).
  eauto.
Qed.

Lemma info_chunk_ok ck info m :
  well_framed ck → info_size_ok ck → m !! id ck ≠ Some true →
  ∃ info', info_chunk ck (info, m) = inr (info', mark m ck).
Proof.
  intros Hwf Hsz Hm. unfold info_chunk, mark.
  destruct (m !! id ck) as [[]|]; [done| |by eexists].
  destruct (info_switch_ok ck info Hwf Hsz) as [info' ->]. by eexists.
Qed.

(** The INFO loop body accepts a list of framed chunks in which no known
    tag comes twice and every known chunk has an accepted size. *)
Lemma run_info_ok cs :
  Forall well_framed cs → Forall info_size_ok cs →
  NoDup (filter (.∈ info_tags) (id <$> cs)) →
  ∀ info m,
    (∀ t, is_Some (m !! t) ↔ t ∈ info_tags) →
    (∀ t, t ∈ id <$> cs → m !! t ≠ Some true) →
    ∃ info', run_chunks info_chunk cs (info, m) = inr (info', foldl mark m cs).
Proof.
  induction 1 as [|ck cs Hwf _ IH]; intros Hsz Hnd info m Hkeys Hfresh.
  { by exists info. }
  apply Forall_cons in Hsz as [Hsz Hszs].
  destruct (info_chunk_ok ck info m Hwf Hsz) as [info1 Hinfo1].
  { apply Hfresh. rewrite fmap_cons. by left. }
  rewrite fmap_cons, filter_cons in Hnd.
  destruct (IH Hszs) with (info := info1) (m := mark m ck) as [info' Hrun].
  - destruct (decide (id ck ∈ info_tags)); [by apply NoDup_cons in Hnd as [_ ?]|done].
  - intros t. rewrite mark_lookup, <- Hkeys.
    destruct (m !! t); [|done]. split; eauto.
  - intros t Ht. rewrite mark_lookup.
    pose proof (Hfresh t ltac:(rewrite fmap_cons; by right)) as Hmt.
    destruct (m !! t) as [[]|] eqn:Et; [done| |done].
    intros [= Hb]. apply bool_decide_eq_true_1 in Hb.
    assert (t ∈ info_tags) as Hin by (apply Hkeys; eauto).
    rewrite Hb, decide_True in Hnd by done.
    apply NoDup_cons in Hnd as [Hnot _]. apply Hnot.
    by apply list_elem_of_filter.
  - exists info'. by rewrite run_chunks_cons, Hinfo1.
Qed.

Lemma infoChunks_keys t : is_Some (infoChunks_init !! t) ↔ t ∈ info_tags.
Proof.
  rewrite infoChunks_init_lookup.
  case_bool_decide; (split; [|intros ?]); try done; eauto.
Qed.

(** [infoChunks[t]] at the end of the loop, for a known tag. *)
Lemma info_seen cs t :
  t ∈ info_tags →
  map_get (foldl mark infoChunks_init cs) t = bool_decide (t ∈ id <$> cs).
Proof.
  intros Ht. unfold map_get.
  rewrite foldl_mark_lookup, infoChunks_init_lookup.
  by rewrite bool_decide_eq_true_2.
Qed.

(** [ReadSoundFontInfo] on an INFO list. *)
Lemma ReadSoundFontInfo_frames cs tail :
  Forall well_framed cs → parse tail = inl EOF →
  ReadSoundFontInfo (info_list cs tail) =
  '(info, m) ← run_chunks info_chunk cs (empty_info, infoChunks_init);
  if negb (map_get m tag_ifil) then inl (Errorf "ifil chunk is missing")
  else if negb (map_get m tag_isng) then inr (set_Engine "EMU8000" info)
  else inr info.
Proof.
  intros Hwf Htail. unfold ReadSoundFontInfo, info_list, Expect, tag_bytes.
  rewrite ReadFull_app.
  cbn [mbind result_bind negb bool_decide]. rewrite bool_decide_eq_true_2 by done.
  cbn [negb]. rewrite chunk_loop_frames by done.
  destruct (run_chunks _ _ _) as [err|[info m]]; [done|].
  cbn [mbind result_bind]. by rewrite chunk_loop_EOF.
Qed.

(** * The claims *)

(** A decidable statement about concrete data, settled by evaluation. *)
Ltac by_evaluation :=
  match goal with |- ?P => apply (@bool_decide_unpack P _) end;
  vm_compute; exact I.

(** ** The sample decoder *)

(** C1.  The claim asks for the little-endian value of each pair of bytes.
    The loop shifts both bytes of the pair left by eight, so the low byte of
    the pair never reaches the low byte of the sample: on the payload
    [01 00] the decoder yields 256, whereas the little-endian value of the
    pair is 1. *)
Theorem smpl_low_byte_shifted :
  ReadSoundFontSamples (frame (chunk_of tag_smpl [x01; x00]))
  = inr (mkSamples [256] [])
  ∧ int16 (le_uint16 x01 x00) = 1
  ∧ ∀ d, Forall (λ v, v mod 256 = 0) (higher_of d).
Proof.
  split; [reflexivity|]. split; [reflexivity|].
  intros d. unfold higher_of. apply Forall_fmap, Forall_forall.
  intros i _. simpl. apply lor_low_byte_zero; apply shl_int16_low_byte_zero.
Qed.







(** ** The hydra decoder on a list of framed chunks *)

(** A chunk with a payload that is not a whole number of records stops the
    decoder with the size error of that chunk. *)
Lemma hydra_bad_size order cs tail :
  Forall well_framed cs → ¬ Forall well_sized cs →
  ∃ what ck, ck ∈ cs ∧ ¬ well_sized ck
    ∧ ReadSoundFontHydra order (frames cs ++ tail)
      = inl (ErrInvalidSize what (size ck)).
Proof.
  intros Hwf Hbad.
  pose proof (run_hydra_spec cs Hwf empty_hydra _ nine_keys_init) as Hrun.
  rewrite decide_False in Hrun by done.
  destruct Hrun as (what & ck & Hin & Hck & Hrun).
  exists what, ck. split; [done|]. split; [done|].
  unfold ReadSoundFontHydra. by rewrite chunk_loop_frames, Hrun.
Qed.

(** With whole records everywhere, the decoder reaches the final check with
    each array holding the records of the last chunk of its tag. *)
Lemma hydra_good_sizes order cs tail :
  Forall well_framed cs → parse tail = inl EOF → Forall well_sized cs →
  ∃ s,
    (∀ f, match last_with (field_tag f) cs with
          | Some ck => ∃ h, hydra_switch ck empty_hydra = inr h
                            ∧ same_field f s h
          | None => same_field f s empty_hydra
          end)
    ∧ ReadSoundFontHydra order (frames cs ++ tail)
      = match first_missing order (foldl mark pdtaChunks_init cs) with
        | Some t => inl (ErrMissingChunk t)
        | None => inr s
        end.
Proof.
  intros Hwf Htail Hsz.
  pose proof (run_hydra_spec cs Hwf empty_hydra _ nine_keys_init) as Hrun.
  rewrite decide_True in Hrun by done. destruct Hrun as (s & Hrun & Hf).
  exists s. split; [done|].
  by rewrite ReadSoundFontHydra_frames, Hrun.
Qed.

(** What a successful decode tells about the chunks. *)
Lemma hydra_success order cs tail h :
  Forall well_framed cs → parse tail = inl EOF →
  ReadSoundFontHydra order (frames cs ++ tail) = inr h →
  Forall well_sized cs
  ∧ first_missing order (foldl mark pdtaChunks_init cs) = None
  ∧ ∀ f, match last_with (field_tag f) cs with
         | Some ck => ∃ h1, hydra_switch ck empty_hydra = inr h1
                            ∧ same_field f h h1
         | None => same_field f h empty_hydra
         end.
Proof.
  intros Hwf Htail Hok.
  destruct (decide (Forall well_sized cs)) as [Hsz|Hbad].
  - destruct (hydra_good_sizes order cs tail Hwf Htail Hsz) as (s & Hf & Hrun).
    rewrite Hrun in Hok.
    destruct (first_missing _ _); [done|]. by injection Hok as <-.
  - destruct (hydra_bad_size order cs tail Hwf Hbad) as (? & ? & _ & _ & Hrun).
    congruence.
Qed.

(** The array of a tag, when it holds the records of the chunk [ck]. *)
Lemma last_chunk_decoded f ck h h1 :
  id ck = field_tag f → well_framed ck → well_sized ck →
  hydra_switch ck empty_hydra = inr h1 → same_field f h h1 →
  Z.of_nat (field_length f h) = size ck / field_width f
  ∧ encode_field f h = data ck.
Proof.
  intros Hid [Hlen Hlt] Hsz Hsw Hsame.
  unfold well_sized in Hsz. rewrite Hid, classify_field_tag in Hsz.
  pose proof (hydra_switch_field f ck Hid Hlen) as Hfield.
  rewrite decide_True in Hfield by done.
  destruct Hfield as (upd & Hupd & Hl & Henc & _).
  rewrite Hupd in Hsw. injection Hsw as <-.
  rewrite (same_field_length _ _ _ Hsame), (same_field_encode _ _ _ Hsame).
  rewrite Hl, Henc. split; [|done].
  apply Z2Nat.id, Z.div_pos; [lia|by destruct f].
Qed.

Lemma Forall_elem {A} (P : A → Prop) (l : list A) x :
  Forall P l → x ∈ l → P x.
Proof. rewrite Forall_forall. eauto. Qed.

Lemma hydra_tags_field t : t ∈ hydra_tags ↔ ∃ f, t = field_tag f.
Proof.
  unfold hydra_tags. rewrite list_elem_of_fmap. split.
  - intros (f & -> & _). eauto.
  - intros [f ->]. exists f. split; [done|]. destruct f; set_solver.
Qed.

(** ** The claims on the hydra decoder *)

(** C3.  The claim asks for at least one record in each of the nine
    arrays, and the comments on the fields of [SoundFontHydra] promise as
    much for three of them: [Headers] and [PBag] always hold at least two
    records, [IBag] a terminal record.  The decoder checks only that the
    length of a chunk is a multiple of the record width, which zero is:
    nine chunks of length zero decode successfully, and every array of the
    result, the three of the comments included, is empty. *)
Theorem hydra_empty_arrays :
  ReadSoundFontHydra hydra_tags (frames nine_empty) = inr empty_hydra
  ∧ ∀ f, field_length f empty_hydra = 0%nat.
Proof. split; [reflexivity|by intros []]. Qed.

(** C5.  In a list of framed chunks, a chunk of one of the nine tags whose
    declared length is not a multiple of the record width of its tag makes
    the decode fail with the size error, whatever follows the list; when
    every such chunk holds whole records the decode can only fail for a
    missing tag, and on success the array of each tag has exactly (declared
    length / record width) records of the last chunk of that tag. *)
Theorem hydra_record_width order cs tail :
  Forall well_framed cs →
  (¬ Forall well_sized cs →
     ∃ what ck, ck ∈ cs ∧ ¬ well_sized ck
       ∧ ReadSoundFontHydra order (frames cs ++ tail)
         = inl (ErrInvalidSize what (size ck)))
  ∧ (Forall well_sized cs → parse tail = inl EOF →
       (∃ t, ReadSoundFontHydra order (frames cs ++ tail)
             = inl (ErrMissingChunk t))
       ∨ (∃ h, ReadSoundFontHydra order (frames cs ++ tail) = inr h
            ∧ ∀ f ck, last_with (field_tag f) cs = Some ck →
                Z.of_nat (field_length f h) = size ck / field_width f)).
Proof.
  intros Hwf. split; [by apply hydra_bad_size|]. intros Hsz Htail.
  destruct (hydra_good_sizes order cs tail Hwf Htail Hsz) as (s & Hf & Hrun).
  rewrite Hrun. destruct (first_missing _ _) as [t|]; [left; eauto|].
  right. exists s. split; [done|]. intros f ck Hlast.
  specialize (Hf f). rewrite Hlast in Hf. destruct Hf as (h1 & Hh1 & Hsame).
  apply last_with_Some in Hlast as [Hin Hid].
  eapply last_chunk_decoded; try done; by eapply Forall_elem.
Qed.

Lemma hydra_record_width_witness :
  Forall well_framed nine_and_odd_pgen
  ∧ ∃ what ck, ck ∈ nine_and_odd_pgen ∧ ¬ well_sized ck
      ∧ ReadSoundFontHydra hydra_tags (frames nine_and_odd_pgen ++ [x00])
        = inl (ErrInvalidSize what (size ck)).
Proof.
  split; [by_evaluation|].
  apply (hydra_record_width hydra_tags nine_and_odd_pgen [x00]);
    by_evaluation.
Defined.

(** C6.  The decode of a list of framed chunks succeeds only if each of the
    nine tags occurs.  When every chunk holds whole records and a tag is
    absent, the decode fails with the missing-chunk error naming an absent
    tag, which is that tag when it is the only absent one.  A list with
    exactly one chunk of whole records for each of the nine tags, in any
    order, decodes successfully. *)
Theorem hydra_nine_tags_required order cs tail :
  order ≡ₚ hydra_tags → Forall well_framed cs → parse tail = inl EOF →
  (∀ h, ReadSoundFontHydra order (frames cs ++ tail) = inr h →
        ∀ t, t ∈ hydra_tags → t ∈ (id <$> cs))
  ∧ (Forall well_sized cs → ∀ t, t ∈ hydra_tags → t ∉ (id <$> cs) →
       ∃ t', t' ∈ hydra_tags ∧ (t' ∉ (id <$> cs))
         ∧ ReadSoundFontHydra order (frames cs ++ tail)
           = inl (ErrMissingChunk t')
         ∧ ((∀ u, u ∈ hydra_tags → u ≠ t → u ∈ (id <$> cs)) → t' = t))
  ∧ (Forall well_sized cs → id <$> cs ≡ₚ hydra_tags →
       ∃ h, ReadSoundFontHydra order (frames cs ++ tail) = inr h).
Proof.
  intros Hperm Hwf Htail.
  pose proof (first_missing_seen order cs Hperm) as Hseen.
  split; [|split].
  - intros h Hok.
    destruct (hydra_success _ _ _ _ Hwf Htail Hok) as (_ & Hnone & _).
    by rewrite Hnone in Hseen.
  - intros Hsz t Ht Habsent.
    destruct (hydra_good_sizes order cs tail Hwf Htail Hsz) as (s & _ & Hrun).
    destruct (first_missing _ _) as [t'|].
    + destruct Hseen as [Ht' Habsent']. exists t'. do 3 (split; [done|]).
      intros Hothers. destruct (decide (t' = t)) as [|Hne]; [done|].
      destruct Habsent'. by apply Hothers.
    + destruct Habsent. by apply Hseen.
  - intros Hsz Hids.
    destruct (hydra_good_sizes order cs tail Hwf Htail Hsz) as (s & _ & Hrun).
    destruct (first_missing _ _) as [t'|]; [|eauto].
    destruct Hseen as [Ht' Habsent']. destruct Habsent'. by rewrite Hids.
Qed.

Lemma hydra_nine_tags_required_witness :
  hydra_tags ≡ₚ hydra_tags
  ∧ Forall well_framed nine_empty
  ∧ parse [] = inl EOF
  ∧ ∃ h, ReadSoundFontHydra hydra_tags (frames nine_empty ++ []) = inr h.
Proof.
  split; [reflexivity|]. split; [by_evaluation|]. split; [reflexivity|].
  apply (hydra_nine_tags_required hydra_tags nine_empty []);
    [reflexivity|by_evaluation|reflexivity|by_evaluation|reflexivity].
Defined.

(** C9.  For each of the nine tags and every payload whose length is a
    multiple of the record width of the tag, the switch of the decoder
    decodes the payload into (length / width) records, and writing the
    fields of these records back in the layout of the table, little-endian,
    gives the payload again. *)
Theorem hydra_record_round_trip f d :
  Z.of_nat (length d) mod field_width f = 0 →
  ∃ h, hydra_switch (chunk_of (field_tag f) d) empty_hydra = inr h
       ∧ Z.of_nat (field_length f h) = Z.of_nat (length d) / field_width f
       ∧ encode_field f h = d.
Proof.
  intros Hmod.
  pose proof (hydra_switch_field f (chunk_of (field_tag f) d) eq_refl eq_refl)
    as Hfield.
  rewrite decide_True in Hfield by done.
  destruct Hfield as (upd & Hupd & Hl & Henc & _).
  exists (upd empty_hydra). split; [done|]. rewrite Hl, Henc.
  split; [|done]. apply Z2Nat.id, Z.div_pos; [simpl; lia|by destruct f].
Qed.

Lemma hydra_record_round_trip_witness :
  Z.of_nat (length [x01; x02; x03; xff]) mod field_width Fpgen = 0
  ∧ ∃ h, hydra_switch (chunk_of (field_tag Fpgen) [x01; x02; x03; xff])
           empty_hydra = inr h
         ∧ Z.of_nat (field_length Fpgen h)
           = Z.of_nat (length [x01; x02; x03; xff]) / field_width Fpgen
         ∧ encode_field Fpgen h = [x01; x02; x03; xff].
Proof.
  split; [reflexivity|].
  apply (hydra_record_round_trip Fpgen [x01; x02; x03; xff]); reflexivity.
Defined.

(** C10.  A list of framed chunks of whole records in which each of the
    nine tags occurs at least once decodes successfully, however often a
    tag is repeated; the array of each tag holds the records decoded from
    the last chunk of that tag, which re-encode to the payload of that
    chunk. *)
Theorem hydra_last_occurrence_wins order cs tail :
  order ≡ₚ hydra_tags → Forall well_framed cs → parse tail = inl EOF →
  Forall well_sized cs → (∀ t, t ∈ hydra_tags → t ∈ (id <$> cs)) →
  ∃ h, ReadSoundFontHydra order (frames cs ++ tail) = inr h
    ∧ ∀ f, ∃ ck h1, last_with (field_tag f) cs = Some ck
             ∧ hydra_switch ck empty_hydra = inr h1
             ∧ same_field f h h1
             ∧ encode_field f h = data ck.
Proof.
  intros Hperm Hwf Htail Hsz Hall.
  destruct (hydra_good_sizes order cs tail Hwf Htail Hsz) as (s & Hf & Hrun).
  pose proof (first_missing_seen order cs Hperm) as Hseen.
  destruct (first_missing _ _) as [t'|].
  { destruct Hseen as [Ht' Habsent]. destruct Habsent. by apply Hall. }
  exists s. split; [done|]. intros f. specialize (Hf f).
  destruct (last_with (field_tag f) cs) as [ck|] eqn:Hlast.
  - destruct Hf as (h1 & Hh1 & Hsame). exists ck, h1. do 3 (split; [done|]).
    apply last_with_Some in Hlast as [Hin Hid].
    eapply last_chunk_decoded; try done; by eapply Forall_elem.
  - apply last_with_None in Hlast. destruct Hlast.
    apply Hall, hydra_tags_field. eauto.
Qed.

Lemma hydra_last_occurrence_wins_witness :
  hydra_tags ≡ₚ hydra_tags
  ∧ Forall well_framed nine_and_two_pbag
  ∧ parse [] = inl EOF
  ∧ Forall well_sized nine_and_two_pbag
  ∧ (∀ t, t ∈ hydra_tags → t ∈ (id <$> nine_and_two_pbag))
  ∧ ∃ h, ReadSoundFontHydra hydra_tags (frames nine_and_two_pbag ++ []) = inr h
      ∧ ∀ f, ∃ ck h1, last_with (field_tag f) nine_and_two_pbag = Some ck
               ∧ hydra_switch ck empty_hydra = inr h1
               ∧ same_field f h h1
               ∧ encode_field f h = data ck.
Proof.
  assert (∀ t, t ∈ hydra_tags → t ∈ (id <$> nine_and_two_pbag)) as Hall.
  { intros t Ht. apply hydra_tags_field in Ht as [f ->].
    destruct f; by_evaluation. }
  split; [reflexivity|]. split; [by_evaluation|]. split; [reflexivity|].
  split; [by_evaluation|]. split; [exact Hall|].
  apply (hydra_last_occurrence_wins hydra_tags nine_and_two_pbag []);
    [reflexivity|by_evaluation|reflexivity|by_evaluation|exact Hall].
Defined.

(** ** The info decoder *)

(** C7.  For an INFO list of framed chunks that the loop reads to its end
    (no known tag twice, every known chunk of an accepted size): without an
    ifil chunk the decode fails with the error of the missing ifil; with an
    ifil chunk and without an isng chunk it succeeds and the sound engine
    is the literal EMU8000. *)
Theorem info_ifil_required_isng_default cs tail :
  Forall well_framed cs → Forall info_size_ok cs →
  NoDup (filter (.∈ info_tags) (id <$> cs)) → parse tail = inl EOF →
  (tag_ifil ∉ (id <$> cs) →
     ReadSoundFontInfo (info_list cs tail)
     = inl (Errorf "ifil chunk is missing"))
  ∧ (tag_ifil ∈ (id <$> cs) → tag_isng ∉ (id <$> cs) →
     ∃ info, ReadSoundFontInfo (info_list cs tail) = inr info
             ∧ Engine info = "EMU8000"%string).
Proof.
  intros Hwf Hsz Hnd Htail.
  destruct (run_info_ok cs Hwf Hsz Hnd empty_info infoChunks_init)
    as [info Hrun].
  { apply infoChunks_keys. }
  { intros t _. rewrite infoChunks_init_lookup. by case_bool_decide. }
  rewrite ReadSoundFontInfo_frames, Hrun by done.
  cbn [mbind result_bind].
  rewrite !info_seen by (unfold info_tags; set_solver).
  split.
  - intros Hifil. by rewrite bool_decide_eq_false_2.
  - intros Hifil Hisng.
    rewrite bool_decide_eq_true_2, bool_decide_eq_false_2 by done.
    by eexists.
Qed.

Lemma info_ifil_required_isng_default_witness :
  Forall well_framed ifil_and_INAM
  ∧ Forall info_size_ok ifil_and_INAM
  ∧ NoDup (filter (.∈ info_tags) (id <$> ifil_and_INAM))
  ∧ parse [] = inl EOF
  ∧ ∃ info, ReadSoundFontInfo (info_list ifil_and_INAM []) = inr info
            ∧ Engine info = "EMU8000"%string.
Proof.
  split; [by_evaluation|]. split; [by_evaluation|]. split; [by_evaluation|].
  split; [reflexivity|].
  apply (info_ifil_required_isng_default ifil_and_INAM []);
    [by_evaluation|by_evaluation|by_evaluation|reflexivity
    |by_evaluation|by_evaluation].
Defined.

(** ** Truncated chunks *)

(** C4.  The claim asks that a truncated chunk always be reported as an
    error.  [parse] reports the plain end of input, not the unexpected one,
    when the input stops right after the four tag bytes, or right after the
    length of a chunk with a non-empty payload; both list decoders take that
    for the end of the list and succeed.  A cut inside the tag, the length
    or the payload is reported. *)
Theorem truncated_chunk_taken_for_end :
  parse (tag_bytes tag_phdr) = inl EOF
  ∧ parse (tag_bytes tag_phdr ++ put_uint32 38) = inl EOF
  ∧ parse (tag_bytes tag_phdr ++ [x26; x00]) = inl ErrUnexpectedEOF
  ∧ parse (tag_bytes tag_phdr ++ put_uint32 38 ++ [x00]) = inl ErrUnexpectedEOF
  ∧ ReadSoundFontHydra hydra_tags
      (frames nine_empty ++ tag_bytes tag_phdr ++ put_uint32 38)
    = inr empty_hydra
  ∧ ReadSoundFontInfo (info_list ifil_and_INAM (tag_bytes tag_isng))
    = ReadSoundFontInfo (info_list ifil_and_INAM [])
  ∧ ∃ info, ReadSoundFontInfo (info_list ifil_and_INAM (tag_bytes tag_isng))
            = inr info.
Proof. repeat split; try reflexivity. eexists. reflexivity. Qed.


(** * Further properties of the code *)

Import Shape.

(** ** Chunk framing *)

Lemma parse_error r e : parse r = inl e → e = EOF ∨ e = ErrUnexpectedEOF.
Proof.
  unfold parse.
  destruct r as [|a [|b [|c [|d r]]]]; simpl; try (intros [= <-]; eauto).
  destruct r as [|s0 [|s1 [|s2 [|s3 r]]]]; simpl; try (intros [= <-]; eauto).
  unfold ReadFull. destruct (Z.to_nat _); simpl; [done|].
  repeat case_bool_decide; simpl; intros [= <-]; eauto.
Qed.

(** Every input is a list of framed chunks followed by a tail that [parse]
    rejects. *)
Lemma chunk_split r :
  ∃ cs tail e, r = frames cs ++ tail ∧ Forall well_framed cs
               ∧ parse tail = inl e.
Proof.
  remember (length r) as n eqn:Hn. revert r Hn.
  induction n as [n IH] using lt_wf_ind. intros r ->.
  destruct (parse r) as [e|[ck r']] eqn:Hp.
  - exists [], r, e. by repeat split.
  - pose proof (parse_length _ _ _ Hp) as Hlt.
    apply parse_inv in Hp as [-> Hwf].
    destruct (IH _ Hlt r' eq_refl) as (cs & tail & e & -> & Hcs & Ht).
    exists (ck :: cs), tail, e. split; [|split; [by constructor|done]].
    unfold frames. rewrite fmap_cons. simpl. by rewrite <- app_assoc.
Qed.

(** The loop on such an input: the body over the chunks, then the end of
    the list or the error of the tail. *)
Lemma chunk_loop_tail {S} (body : chunk → S → result S) cs tail e s :
  Forall well_framed cs → parse tail = inl e →
  chunk_loop body (frames cs ++ tail) s =
  s' ← run_chunks body cs s;
  if bool_decide (e = EOF) then inr s' else inl e.
Proof.
  intros Hwf Htail. rewrite chunk_loop_frames by done.
  destruct (run_chunks body cs s) as [err|s']; [done|].
  cbn [mbind result_bind]. rewrite chunk_loop_step, Htail.
  by destruct e.
Qed.

Lemma run_chunks_app {S} (body : chunk → S → result S) cs1 cs2 s :
  run_chunks body (cs1 ++ cs2) s =
  s' ← run_chunks body cs1 s; run_chunks body cs2 s'.
Proof.
  revert s. induction cs1 as [|ck cs1 IH]; intros s; [done|].
  rewrite <- app_comm_cons, !run_chunks_cons.
  destruct (body ck s) as [err|s1]; [done|]. apply IH.
Qed.

Lemma frames_app cs1 cs2 : frames (cs1 ++ cs2) = frames cs1 ++ frames cs2.
Proof. unfold frames. by rewrite fmap_app, concat_app. Qed.

Lemma frames_cons ck cs : frames (ck :: cs) = frame ck ++ frames cs.
Proof. done. Qed.

Lemma frame_length ck :
  length (frame ck) = (8 + length (data ck))%nat.
Proof. by destruct ck as [[[[a b] c] d] sz dat]. Qed.

(** [expect] on a framed chunk of another tag. *)
Lemma expect_other ck rest want :
  well_framed ck → id ck ≠ want →
  expect (frame ck ++ rest) want = inl (ErrChunkId want (id ck)).
Proof.
  intros Hwf Hid. unfold expect. rewrite parse_frame by done.
  cbn [mbind result_bind]. by rewrite bool_decide_eq_true_2.
Qed.

(** X1.  [parse] reads back a framed chunk: on the four tag bytes, the
    little-endian length and the payload of a chunk, followed by anything,
    it returns that chunk and leaves what follows unread. *)
Theorem parse_reads_back_frame ck rest :
  well_framed ck → parse (frame ck ++ rest) = inr (ck, rest).
Proof. apply parse_frame. Qed.

Lemma parse_reads_back_frame_witness :
  well_framed pgen_chunk
  ∧ parse (frame pgen_chunk ++ [x07]) = inr (pgen_chunk, [x07]).
Proof.
  split; [by_evaluation|].
  apply (parse_reads_back_frame pgen_chunk [x07]); by_evaluation.
Defined.

(** X2.  Whatever [parse] accepts is a framed chunk: the input is the frame
    of the returned chunk followed by the returned rest, the payload has
    exactly the declared length, which is below 2^32, and exactly
    8 + length bytes were consumed. *)
Theorem parse_accepts_only_frames r ck r' :
  parse r = inr (ck, r') →
  r = frame ck ++ r'
  ∧ size ck = Z.of_nat (length (data ck))
  ∧ 0 ≤ size ck < 2 ^ 32
  ∧ length r = (8 + length (data ck) + length r')%nat.
Proof.
  intros Hp. apply parse_inv in Hp as [-> [Hsz Hlt]].
  split; [done|]. split; [done|]. split; [lia|].
  by rewrite length_app, frame_length.
Qed.

Lemma parse_accepts_only_frames_witness :
  parse (frame pgen_chunk ++ [x07]) = inr (pgen_chunk, [x07])
  ∧ frame pgen_chunk ++ [x07] = frame pgen_chunk ++ [x07]
  ∧ size pgen_chunk = Z.of_nat (length (data pgen_chunk))
  ∧ 0 ≤ size pgen_chunk < 2 ^ 32
  ∧ length (frame pgen_chunk ++ [x07])
    = (8 + length (data pgen_chunk) + length [x07])%nat.
Proof.
  split; [reflexivity|].
  apply (parse_accepts_only_frames (frame pgen_chunk ++ [x07]) pgen_chunk [x07]).
  reflexivity.
Defined.

(** X3.  [parse] fails only with one of the two end-of-input errors, never
    with a panic.  It reports the plain [io.EOF] only on three kinds of
    input: the empty input, four tag bytes alone, and a tag with a non-zero
    length and no payload byte at all; and [io.ErrUnexpectedEOF] only on an
    input that is neither empty nor four tag bytes alone. *)
Theorem parse_failure_kinds r e :
  parse r = inl e →
  (e = EOF ∧ (r = [] ∨ (∃ t, r = tag_bytes t)
              ∨ ∃ ck, r = tag_bytes (id ck) ++ put_uint32 (size ck)
                      ∧ 0 < size ck < 2 ^ 32))
  ∨ (e = ErrUnexpectedEOF ∧ r ≠ [] ∧ ∀ t, r ≠ tag_bytes t).
Proof.
  intros Hp. destruct (parse_error r e Hp) as [->| ->].
  - left. split; [done|]. by apply parse_EOF.
  - right. split; [done|]. split.
    + intros ->. done.
    + intros [[[a b] c] d] ->. done.
Qed.

Lemma parse_failure_kinds_witness :
  parse cut_chunk = inl ErrUnexpectedEOF
  ∧ ((ErrUnexpectedEOF = EOF
      ∧ (cut_chunk = [] ∨ (∃ t, cut_chunk = tag_bytes t)
         ∨ ∃ ck, cut_chunk = tag_bytes (id ck) ++ put_uint32 (size ck)
                 ∧ 0 < size ck < 2 ^ 32))
     ∨ (ErrUnexpectedEOF = ErrUnexpectedEOF ∧ cut_chunk ≠ []
        ∧ ∀ t, cut_chunk ≠ tag_bytes t)).
Proof.
  split; [reflexivity|].
  apply (parse_failure_kinds cut_chunk ErrUnexpectedEOF). reflexivity.
Defined.

(** X4.  [expect] on a framed chunk returns the chunk when its tag is the
    expected one, and otherwise fails with the error that carries both the
    expected tag and the tag found; the chunk is consumed in both cases. *)
Theorem expect_checks_tag ck rest want :
  well_framed ck →
  expect (frame ck ++ rest) want =
  if decide (id ck = want) then inr (ck, rest)
  else inl (ErrChunkId want (id ck)).
Proof.
  intros Hwf. case_decide as Hid.
  - subst want. by apply expect_frame.
  - by apply expect_other.
Qed.

Lemma expect_checks_tag_witness :
  well_framed pgen_chunk
  ∧ expect (frame pgen_chunk ++ []) tag_phdr
    = inl (ErrChunkId tag_phdr tag_pgen).
Proof.
  split; [by_evaluation|].
  apply (expect_checks_tag pgen_chunk [] tag_phdr). by_evaluation.
Defined.

(** X5.  [Expect] consumes as many bytes as it is given to compare and
    answers whether they are equal: true on the expected bytes, false, and
    not an error, on other bytes of the same number. *)
Theorem Expect_compares b b' rest :
  length b' = length b →
  Expect (b' ++ rest) b = inr (bool_decide (b' = b), rest).
Proof.
  intros Hlen. unfold Expect. rewrite <- Hlen, ReadFull_app. done.
Qed.

Lemma Expect_compares_witness :
  length [x01; x02] = length [x01; x03]
  ∧ Expect ([x01; x02] ++ [x09]) [x01; x03]
    = inr (bool_decide ([x01; x02] = [x01; x03]), [x09]).
Proof.
  split; [reflexivity|].
  apply (Expect_compares [x01; x03] [x01; x02] [x09]). reflexivity.
Defined.

(** ** The sample decoder *)

Lemma all_bytes_complete b : b ∈ all_bytes.
Proof.
  unfold all_bytes. apply list_elem_of_fmap.
  exists (Z.to_nat (byte_to_Z b)). pose proof (byte_to_Z_range b).
  rewrite Z2Nat.id by lia. split; [by rewrite byte_of_to_Z|].
  apply elem_of_seq. lia.
Qed.

(** Checked on each of the 65536 pairs of bytes. *)
Lemma lor_shl_int16_table :
  forallb (λ a, forallb (λ b,
    Z.lor (shl_int16 (int16 (byte_to_Z a)) 8)
          (shl_int16 (int16 (byte_to_Z b)) 8)
    =? int16 (256 * Z.lor (byte_to_Z a) (byte_to_Z b))) all_bytes) all_bytes
  = true.
Proof. vm_compute. reflexivity. Qed.

Lemma lor_shl_int16 a b :
  Z.lor (shl_int16 (int16 (byte_to_Z a)) 8) (shl_int16 (int16 (byte_to_Z b)) 8)
  = int16 (256 * Z.lor (byte_to_Z a) (byte_to_Z b)).
Proof.
  pose proof lor_shl_int16_table as H.
  rewrite forallb_forall in H.
  specialize (H a (proj1 (list_elem_of_In _ _) (all_bytes_complete a))).
  rewrite forallb_forall in H.
  specialize (H b (proj1 (list_elem_of_In _ _) (all_bytes_complete b))).
  by apply Z.eqb_eq in H.
Qed.

Lemma int16_range v : is_int 16 (int16 v).
Proof. unfold is_int, int16, to_signed. simpl Z.sub. divmod_lia. Qed.

Lemma int8_range v : is_int 8 (int8 v).
Proof. unfold is_int, int8, to_signed. simpl Z.sub. divmod_lia. Qed.

Lemma byte_of_int8 b : byte_of_Z (int8 (byte_to_Z b)) = b.
Proof.
  rewrite <- (byte_of_to_Z b) at 2. rewrite <- byte_of_Z_mod.
  rewrite <- (byte_of_Z_mod (byte_to_Z b)). f_equal.
  unfold int8, to_signed. simpl Z.sub. pose proof (byte_to_Z_range b).
  divmod_lia.
Qed.

Lemma higher_of_lookup d (i : nat) hi lo :
  d !! (2 * i)%nat = Some lo → d !! (2 * i + 1)%nat = Some hi →
  higher_of d !! i
  = Some (int16 (256 * Z.lor (byte_to_Z hi) (byte_to_Z lo))).
Proof.
  intros Hlo Hhi. unfold higher_of.
  assert (i < length d / 2)%nat as Hi.
  { apply lookup_lt_Some in Hhi. apply Nat.div_le_lower_bound; lia. }
  rewrite list_lookup_fmap, lookup_seq_lt by done. simpl.
  replace (i * 2 + 1)%nat with (2 * i + 1)%nat by lia.
  replace (i * 2)%nat with (2 * i)%nat by lia.
  rewrite (list_lookup_total_correct _ _ _ Hlo).
  rewrite (list_lookup_total_correct _ _ _ Hhi).
  by rewrite lor_shl_int16.
Qed.

(** X6.  What the sixteen-bit loop computes: sample [i] of a smpl payload
    is the [int16] whose low byte is zero and whose high byte is the
    bitwise or of payload bytes [2i] and [2i+1]; every sample is a value of
    type [int16]. *)
Theorem samples_high_byte_is_or d :
  Z.of_nat (length d) < 2 ^ 32 →
  ∃ s, ReadSoundFontSamples (frame (chunk_of tag_smpl d)) = inr s
    ∧ Forall (is_int 16) (SamplesHigher s)
    ∧ ∀ (i : nat) hi lo,
        d !! (2 * i)%nat = Some lo → d !! (2 * i + 1)%nat = Some hi →
        SamplesHigher s !! i
        = Some (int16 (256 * Z.lor (byte_to_Z hi) (byte_to_Z lo))).
Proof.
  intros Hd. exists (mkSamples (higher_of d) []). split; [|split].
  - rewrite <- (app_nil_r (frame _)). by rewrite ReadSoundFontSamples_smpl.
  - simpl. unfold higher_of. apply Forall_fmap, Forall_forall. intros i _.
    simpl. rewrite lor_shl_int16. apply int16_range.
  - intros i hi lo. apply higher_of_lookup.
Qed.

Lemma samples_high_byte_is_or_witness :
  Z.of_nat (length [x81; x02]) < 2 ^ 32
  ∧ ∃ s, ReadSoundFontSamples (frame (chunk_of tag_smpl [x81; x02])) = inr s
      ∧ Forall (is_int 16) (SamplesHigher s)
      ∧ ∀ (i : nat) hi lo,
          [x81; x02] !! (2 * i)%nat = Some lo →
          [x81; x02] !! (2 * i + 1)%nat = Some hi →
          SamplesHigher s !! i
          = Some (int16 (256 * Z.lor (byte_to_Z hi) (byte_to_Z lo))).
Proof.
  split; [by_evaluation|].
  apply (samples_high_byte_is_or [x81; x02]). by_evaluation.
Defined.

(** X7.  The eight-bit loop loses nothing: the low-byte sequence decoded
    from an sm24 payload consists of values of type [int8] and converting
    each back to a byte gives the payload again. *)
Theorem samples_low_bytes_lossless d1 d2 rest :
  Z.of_nat (length d1) < 2 ^ 32 → Z.of_nat (length d2) < 2 ^ 32 →
  ∃ s, ReadSoundFontSamples
         (frame (chunk_of tag_smpl d1) ++ frame (chunk_of tag_sm24 d2) ++ rest)
       = inr s
    ∧ Forall (is_int 8) (SamplesLower s)
    ∧ byte_of_Z <$> SamplesLower s = d2.
Proof.
  intros Hd1 Hd2. exists (mkSamples (higher_of d1) (lower_of d2)).
  split; [by apply ReadSoundFontSamples_sm24|]. simpl. unfold lower_of. split.
  - apply Forall_fmap, Forall_forall. intros b _. apply int8_range.
  - rewrite <- list_fmap_compose. rewrite <- (list_fmap_id d2) at 2.
    apply list_fmap_ext. intros _ b _. apply byte_of_int8.
Qed.

Lemma samples_low_bytes_lossless_witness :
  Z.of_nat (length [x00; x00]) < 2 ^ 32
  ∧ Z.of_nat (length [xff; x7f]) < 2 ^ 32
  ∧ ∃ s, ReadSoundFontSamples
           (frame (chunk_of tag_smpl [x00; x00])
            ++ frame (chunk_of tag_sm24 [xff; x7f]) ++ [])
         = inr s
      ∧ Forall (is_int 8) (SamplesLower s)
      ∧ byte_of_Z <$> SamplesLower s = [xff; x7f].
Proof.
  split; [by_evaluation|]. split; [by_evaluation|].
  apply (samples_low_bytes_lossless [x00; x00] [xff; x7f] []); by_evaluation.
Defined.

(** X8.  The sample list must begin with a smpl chunk: a framed chunk of
    any other tag first makes the decode fail with the tag error, whatever
    follows it. *)
Theorem samples_first_chunk_must_be_smpl ck rest :
  well_framed ck → id ck ≠ tag_smpl →
  ReadSoundFontSamples (frame ck ++ rest) = inl (ErrChunkId tag_smpl (id ck)).
Proof.
  intros Hwf Hid. unfold ReadSoundFontSamples.
  by rewrite expect_other.
Qed.

Lemma samples_first_chunk_must_be_smpl_witness :
  well_framed junk_chunk
  ∧ id junk_chunk ≠ tag_smpl
  ∧ ReadSoundFontSamples (frame junk_chunk ++ [x00])
    = inl (ErrChunkId tag_smpl (id junk_chunk)).
Proof.
  split; [by_evaluation|]. split; [by_evaluation|].
  apply (samples_first_chunk_must_be_smpl junk_chunk [x00]); by_evaluation.
Defined.

(** X9.  After the smpl chunk only an sm24 chunk is accepted: a framed
    chunk of any other tag there makes the whole decode fail with the tag
    error; it is not skipped. *)
Theorem samples_second_chunk_must_be_sm24 d ck rest :
  Z.of_nat (length d) < 2 ^ 32 → well_framed ck → id ck ≠ tag_sm24 →
  ReadSoundFontSamples (frame (chunk_of tag_smpl d) ++ frame ck ++ rest)
  = inl (ErrChunkId tag_sm24 (id ck)).
Proof.
  intros Hd Hwf Hid. rewrite ReadSoundFontSamples_smpl by done.
  by rewrite expect_other.
Qed.

Lemma samples_second_chunk_must_be_sm24_witness :
  Z.of_nat (length [x00; x00]) < 2 ^ 32
  ∧ well_framed junk_chunk
  ∧ id junk_chunk ≠ tag_sm24
  ∧ ReadSoundFontSamples
      (frame (chunk_of tag_smpl [x00; x00]) ++ frame junk_chunk ++ [])
    = inl (ErrChunkId tag_sm24 (id junk_chunk)).
Proof.
  split; [by_evaluation|]. split; [by_evaluation|]. split; [by_evaluation|].
  apply (samples_second_chunk_must_be_sm24 [x00; x00] junk_chunk []);
    by_evaluation.
Defined.

(** X10.  An input on which [parse] fails decides the outcome by the error
    alone.  In place of the smpl chunk it is the error of the decode, also
    the plain [io.EOF] of an empty list.  After the smpl chunk, [io.EOF]
    means no sm24 chunk and success with no low bytes, and
    [io.ErrUnexpectedEOF] is returned as the error of the decode. *)
Theorem samples_rest_decides d tail e :
  Z.of_nat (length d) < 2 ^ 32 → parse tail = inl e →
  ReadSoundFontSamples tail = inl e
  ∧ ReadSoundFontSamples (frame (chunk_of tag_smpl d) ++ tail)
    = if bool_decide (e = EOF) then inr (mkSamples (higher_of d) [])
      else inl ErrUnexpectedEOF.
Proof.
  intros Hd Hp. split.
  - unfold ReadSoundFontSamples, expect. by rewrite Hp.
  - rewrite ReadSoundFontSamples_smpl by done.
    unfold expect. rewrite Hp. cbn [mbind result_bind].
    destruct (parse_error _ _ Hp) as [-> | ->]; done.
Qed.

Lemma samples_rest_decides_witness :
  Z.of_nat (length [x00; x00]) < 2 ^ 32
  ∧ parse [x73; x6d] = inl ErrUnexpectedEOF
  ∧ ReadSoundFontSamples [x73; x6d] = inl ErrUnexpectedEOF
  ∧ ReadSoundFontSamples (frame (chunk_of tag_smpl [x00; x00]) ++ [x73; x6d])
    = if bool_decide (ErrUnexpectedEOF = EOF)
      then inr (mkSamples (higher_of [x00; x00]) [])
      else inl ErrUnexpectedEOF.
Proof.
  split; [by_evaluation|]. split; [reflexivity|].
  apply (samples_rest_decides [x00; x00] [x73; x6d] ErrUnexpectedEOF);
    [by_evaluation|reflexivity].
Defined.

(** ** The hydra decoder *)

Lemma hydra_chunk_mark ck s m s' m' :
  hydra_chunk ck (s, m) = inr (s', m') → m' = mark m ck.
Proof.
  unfold hydra_chunk, mark. destruct (m !! id ck); [|by intros [= _ <-]].
  destruct (hydra_switch ck s); simpl; [done|by intros [= _ <-]].
Qed.

Lemma run_chunks_invariant {S} (body : chunk → S → result S) (I : S → Prop) cs :
  (∀ ck s s', body ck s = inr s' → I s → I s') →
  ∀ s s', run_chunks body cs s = inr s' → I s → I s'.
Proof.
  intros Hbody. induction cs as [|ck cs IH]; intros s s'.
  - by intros [= <-].
  - rewrite run_chunks_cons. destruct (body ck s) as [|s1] eqn:E; [done|].
    cbn [mbind result_bind]. intros Hrun Hs. eapply IH; [done|]. eauto.
Qed.

Lemma run_hydra_keys cs s m s' m' :
  run_chunks hydra_chunk cs (s, m) = inr (s', m') →
  nine_keys m → nine_keys m'.
Proof.
  intros Hrun Hm.
  apply (run_chunks_invariant hydra_chunk (λ st, nine_keys st.2) cs)
    in Hrun; [done| |done].
  intros ck [s1 m1] [s2 m2] Hck Hm1. simpl in *.
  apply hydra_chunk_mark in Hck as ->. by apply nine_keys_mark.
Qed.

Lemma hydra_chunk_unknown ck s m :
  nine_keys m → classify (id ck) = None → hydra_chunk ck (s, m) = inr (s, m).
Proof.
  intros Hm Hck. unfold hydra_chunk.
  destruct (m !! id ck) eqn:E; [|done].
  assert (is_Some (classify (id ck))) as [? ?] by (apply Hm; eauto).
  congruence.
Qed.

(** X11.  A chunk whose tag is none of the nine is skipped by the hydra
    decoder, whatever its length and wherever it stands: the decode of a
    list with such a chunk is the decode of the list without it. *)
Theorem hydra_unknown_chunk_skipped order cs1 ck cs2 tail :
  Forall well_framed cs1 → well_framed ck → classify (id ck) = None →
  ReadSoundFontHydra order (frames (cs1 ++ ck :: cs2) ++ tail)
  = ReadSoundFontHydra order (frames (cs1 ++ cs2) ++ tail).
Proof.
  intros Hwf1 Hwf Hck. unfold ReadSoundFontHydra.
  rewrite !frames_app, frames_cons, <- !app_assoc.
  rewrite !(chunk_loop_frames _ cs1) by done.
  destruct (run_chunks hydra_chunk cs1 _) as [err|[s m]] eqn:Hrun; [done|].
  cbn [mbind result_bind].
  rewrite chunk_loop_step, parse_frame by done.
  rewrite hydra_chunk_unknown; [done| |done].
  eapply run_hydra_keys; [done|apply nine_keys_init].
Qed.

Lemma hydra_unknown_chunk_skipped_witness :
  Forall well_framed nine_empty
  ∧ well_framed junk_chunk
  ∧ classify (id junk_chunk) = None
  ∧ ReadSoundFontHydra hydra_tags
      (frames (nine_empty ++ junk_chunk :: [pgen_chunk]) ++ [])
    = ReadSoundFontHydra hydra_tags (frames (nine_empty ++ [pgen_chunk]) ++ []).
Proof.
  split; [by_evaluation|]. split; [by_evaluation|]. split; [reflexivity|].
  apply (hydra_unknown_chunk_skipped hydra_tags nine_empty junk_chunk
           [pgen_chunk] []); [by_evaluation|by_evaluation|reflexivity].
Defined.

Lemma first_missing_perm o1 o2 m :
  o1 ≡ₚ o2 → first_missing o1 m = None ↔ first_missing o2 m = None.
Proof.
  intros Hperm. rewrite !first_missing_None.
  split; intros H t Ht; apply H.
  - by rewrite Hperm.
  - by rewrite <- Hperm.
Qed.

(** X12.  The order in which [range] visits the keys of the map changes
    nothing but the tag named by the missing-chunk error: under two orders
    with the same keys, the decode succeeds with the same hydra, or fails
    with the same error, or fails with a missing-chunk error under both. *)
Theorem hydra_range_order_irrelevant o1 o2 r :
  o1 ≡ₚ o2 →
  ReadSoundFontHydra o1 r = ReadSoundFontHydra o2 r
  ∨ ∃ t1 t2, ReadSoundFontHydra o1 r = inl (ErrMissingChunk t1)
             ∧ ReadSoundFontHydra o2 r = inl (ErrMissingChunk t2).
Proof.
  intros Hperm. unfold ReadSoundFontHydra.
  destruct (chunk_loop _ _ _) as [err|[s m]]; [by left|].
  cbn [mbind result_bind].
  pose proof (first_missing_perm o1 o2 m Hperm) as Hiff.
  destruct (first_missing o1 m) as [t1|] eqn:E1,
           (first_missing o2 m) as [t2|] eqn:E2.
  - right. eauto.
  - by specialize (proj2 Hiff eq_refl).
  - by specialize (proj1 Hiff eq_refl).
  - by left.
Qed.

Lemma hydra_range_order_irrelevant_witness :
  hydra_tags ≡ₚ reverse hydra_tags
  ∧ (ReadSoundFontHydra hydra_tags (frames [pgen_chunk])
     = ReadSoundFontHydra (reverse hydra_tags) (frames [pgen_chunk])
     ∨ ∃ t1 t2,
         ReadSoundFontHydra hydra_tags (frames [pgen_chunk])
         = inl (ErrMissingChunk t1)
         ∧ ReadSoundFontHydra (reverse hydra_tags) (frames [pgen_chunk])
           = inl (ErrMissingChunk t2)).
Proof.
  split; [symmetry; apply reverse_Permutation|].
  apply (hydra_range_order_irrelevant hydra_tags (reverse hydra_tags)).
  symmetry. apply reverse_Permutation.
Defined.

Lemma hydra_ext h1 h2 : (∀ f, same_field f h1 h2) → h1 = h2.
Proof.
  intros H. destruct h1, h2.
  pose proof (H Fphdr). pose proof (H Fpbag). pose proof (H Fpmod).
  pose proof (H Fpgen). pose proof (H Finst). pose proof (H Fibag).
  pose proof (H Fimod). pose proof (H Figen). pose proof (H Fshdr).
  simpl in *. congruence.
Qed.

Lemma same_field_sym f h1 h2 : same_field f h1 h2 → same_field f h2 h1.
Proof. destruct f; simpl; congruence. Qed.

Lemma NoDup_ids_unique (cs : list chunk) c1 c2 :
  NoDup (id <$> cs) → c1 ∈ cs → c2 ∈ cs → id c1 = id c2 → c1 = c2.
Proof.
  induction cs as [|ck cs IH]; [by intros _ ?%elem_of_nil|].
  rewrite fmap_cons, NoDup_cons. intros [Hnot Hnd] H1 H2 Heq.
  apply elem_of_cons in H1 as [->|H1], H2 as [->|H2]; try done.
  - destruct Hnot. rewrite Heq. by apply list_elem_of_fmap_2.
  - destruct Hnot. rewrite <- Heq. by apply list_elem_of_fmap_2.
  - by apply IH.
Qed.

Lemma last_with_perm t cs1 cs2 :
  cs1 ≡ₚ cs2 → NoDup (id <$> cs1) → last_with t cs1 = last_with t cs2.
Proof.
  intros Hperm Hnd.
  assert (NoDup (id <$> cs2)) as Hnd2 by (by rewrite <- Hperm).
  destruct (last_with t cs1) as [c1|] eqn:E1, (last_with t cs2) as [c2|] eqn:E2;
    try done.
  - apply last_with_Some in E1 as [Hin1 Hid1], E2 as [Hin2 Hid2].
    f_equal. apply (NoDup_ids_unique cs1); try done; [by rewrite Hperm|congruence].
  - apply last_with_Some in E1 as [Hin1 Hid1]. apply last_with_None in E2.
    destruct E2. rewrite <- Hperm, <- Hid1. by apply list_elem_of_fmap_2.
  - apply last_with_Some in E2 as [Hin2 Hid2]. apply last_with_None in E1.
    destruct E1. rewrite Hperm, <- Hid2. by apply list_elem_of_fmap_2.
Qed.

(** X13.  When no tag occurs twice, the order of the chunks in the list is
    irrelevant: if a list of framed chunks decodes successfully, every
    reordering of it decodes to the same hydra. *)
Theorem hydra_chunk_order_irrelevant order cs1 cs2 tail h :
  Forall well_framed cs1 → parse tail = inl EOF →
  cs1 ≡ₚ cs2 → NoDup (id <$> cs1) →
  ReadSoundFontHydra order (frames cs1 ++ tail) = inr h →
  ReadSoundFontHydra order (frames cs2 ++ tail) = inr h.
Proof.
  intros Hwf Htail Hperm Hnd Hok.
  destruct (hydra_success _ _ _ _ Hwf Htail Hok) as (Hsz & Hnone & Hf).
  assert (Forall well_framed cs2) as Hwf2 by (by rewrite <- Hperm).
  assert (Forall well_sized cs2) as Hsz2 by (by rewrite <- Hperm).
  destruct (hydra_good_sizes order cs2 tail Hwf2 Htail Hsz2) as (s & Hf2 & Hrun).
  assert (foldl mark pdtaChunks_init cs2 = foldl mark pdtaChunks_init cs1) as Hm.
  { apply map_eq. intros t. rewrite !seen_lookup.
    destruct (classify t); [|done]. simpl. f_equal.
    apply bool_decide_ext. by rewrite Hperm. }
  rewrite Hrun, Hm, Hnone. f_equal. apply hydra_ext. intros f.
  specialize (Hf f). specialize (Hf2 f).
  rewrite <- (last_with_perm _ cs1 cs2) in Hf2 by done.
  destruct (last_with (field_tag f) cs1).
  - destruct Hf as (h1 & Hh1 & Hs1), Hf2 as (h2 & Hh2 & Hs2).
    rewrite Hh1 in Hh2. injection Hh2 as <-.
    eapply same_field_trans; [done|]. by apply same_field_sym.
  - eapply same_field_trans; [done|]. by apply same_field_sym.
Qed.

Lemma hydra_chunk_order_irrelevant_witness :
  Forall well_framed nine_empty
  ∧ parse [] = inl EOF
  ∧ nine_empty ≡ₚ reverse nine_empty
  ∧ NoDup (id <$> nine_empty)
  ∧ ReadSoundFontHydra hydra_tags (frames nine_empty ++ []) = inr empty_hydra
  ∧ ReadSoundFontHydra hydra_tags (frames (reverse nine_empty) ++ [])
    = inr empty_hydra.
Proof.
  split; [by_evaluation|]. split; [reflexivity|].
  split; [symmetry; apply reverse_Permutation|].
  split; [by_evaluation|]. split; [reflexivity|].
  apply (hydra_chunk_order_irrelevant hydra_tags nine_empty
           (reverse nine_empty) [] empty_hydra);
    [by_evaluation|reflexivity|symmetry; apply reverse_Permutation
    |by_evaluation|reflexivity].
Defined.

(** The hydra decoder on any input, split into its framed chunks and the
    tail that [parse] rejects with [e]. *)
Lemma ReadSoundFontHydra_cases order cs tail e :
  Forall well_framed cs → parse tail = inl e →
  if decide (Forall well_sized cs) then
    ∃ s, ReadSoundFontHydra order (frames cs ++ tail) =
         if bool_decide (e = EOF) then
           match first_missing order (foldl mark pdtaChunks_init cs) with
           | Some t => inl (ErrMissingChunk t)
           | None => inr s
           end
         else inl ErrUnexpectedEOF
  else
    ∃ what ck, ck ∈ cs ∧ ¬ well_sized ck
      ∧ ReadSoundFontHydra order (frames cs ++ tail)
        = inl (ErrInvalidSize what (size ck)).
Proof.
  intros Hwf Htail. case_decide as Hsz; [|by apply hydra_bad_size].
  pose proof (run_hydra_spec cs Hwf empty_hydra _ nine_keys_init) as Hrun.
  rewrite decide_True in Hrun by done. destruct Hrun as (s & Hrun & _).
  exists s. unfold ReadSoundFontHydra.
  rewrite (chunk_loop_tail _ _ _ e), Hrun by done. cbn [mbind result_bind].
  destruct (parse_error _ _ Htail) as [-> | ->]; done.
Qed.

(** X14.  The hydra decoder fails in three ways only: with
    [io.ErrUnexpectedEOF] for a chunk cut short, with the size error of a
    chunk of the list, or with the missing-chunk error for one of the keys
    visited.  It never panics on an index and never returns the plain
    [io.EOF]. *)
Theorem hydra_failure_kinds order r e :
  ReadSoundFontHydra order r = inl e →
  e = ErrUnexpectedEOF
  ∨ (∃ what n, e = ErrInvalidSize what n)
  ∨ (∃ t, e = ErrMissingChunk t ∧ t ∈ order).
Proof.
  destruct (chunk_split r) as (cs & tail & e' & -> & Hwf & Htail).
  pose proof (ReadSoundFontHydra_cases order cs tail e' Hwf Htail) as Hcases.
  case_decide.
  - destruct Hcases as [s ->]. case_bool_decide; [|intros [= <-]; eauto].
    destruct (first_missing _ _) as [t|] eqn:Hm; [|done].
    intros [= <-]. apply first_missing_Some in Hm as [? _]. eauto 6.
  - destruct Hcases as (what & ck & _ & _ & ->). intros [= <-]. eauto 6.
Qed.

Lemma hydra_failure_kinds_witness :
  ReadSoundFontHydra hydra_tags cut_chunk = inl ErrUnexpectedEOF
  ∧ (ErrUnexpectedEOF = ErrUnexpectedEOF
     ∨ (∃ what n, ErrUnexpectedEOF = ErrInvalidSize what n)
     ∨ (∃ t, ErrUnexpectedEOF = ErrMissingChunk t ∧ t ∈ hydra_tags)).
Proof.
  split; [reflexivity|].
  apply (hydra_failure_kinds hydra_tags cut_chunk ErrUnexpectedEOF).
  reflexivity.
Defined.

(** X15.  A chunk cut inside its tag, its length or its payload is
    reported: after framed chunks of whole records, a tail on which [parse]
    gives [io.ErrUnexpectedEOF] makes the decode fail with that error, also
    when all nine tags were seen before it. *)
Theorem hydra_cut_chunk_reported order cs tail :
  Forall well_framed cs → Forall well_sized cs →
  parse tail = inl ErrUnexpectedEOF →
  ReadSoundFontHydra order (frames cs ++ tail) = inl ErrUnexpectedEOF.
Proof.
  intros Hwf Hsz Htail.
  pose proof (ReadSoundFontHydra_cases order cs tail _ Hwf Htail) as Hcases.
  rewrite decide_True in Hcases by done. by destruct Hcases as [s ->].
Qed.

Lemma hydra_cut_chunk_reported_witness :
  Forall well_framed nine_empty
  ∧ Forall well_sized nine_empty
  ∧ parse cut_chunk = inl ErrUnexpectedEOF
  ∧ ReadSoundFontHydra hydra_tags (frames nine_empty ++ cut_chunk)
    = inl ErrUnexpectedEOF.
Proof.
  split; [by_evaluation|]. split; [by_evaluation|]. split; [reflexivity|].
  apply (hydra_cut_chunk_reported hydra_tags nine_empty cut_chunk);
    [by_evaluation|by_evaluation|reflexivity].
Defined.

(** *** Decoded records are values of their types *)

Lemma read_records_Forall {A} (P : A → Prop) sz (dec : decoder A) n r v :
  (∀ d x rest, dec d = Some (x, rest) → P x) →
  read_records sz dec n r = inr v → Forall P v.
Proof.
  intros Hdec. revert r v. induction n as [|n IH]; intros r v.
  - by intros [= <-].
  - cbn [read_records]. unfold binary_Read.
    destruct (ReadFull sz r) as [|[buf r']]; [done|]. cbn [mbind result_bind].
    destruct (dec buf) as [[x rest]|] eqn:Hx; [|done]. cbn [mbind result_bind].
    destruct (read_records sz dec n r') as [|xs] eqn:Hxs; [done|].
    cbn [mbind result_bind]. intros [= <-]. constructor; eauto.
Qed.

Lemma fill_Forall {A} (P : A → Prop) n (f : nat → result A) v :
  (∀ i x, f i = inr x → P x) → fill n f = inr v → Forall P v.
Proof.
  revert f v. induction n as [|n IH]; intros f v Hf.
  - by intros [= <-].
  - rewrite fill_S. destruct (f 0%nat) as [|x] eqn:Hx; [done|].
    cbn [mbind result_bind].
    destruct (fill n (f ∘ S)) as [|xs] eqn:Hxs; [done|].
    cbn [mbind result_bind]. intros [= <-]. constructor; [eauto|].
    eapply IH; [|done]. intros i y. apply Hf.
Qed.

Lemma uint16_le b0 b1 : is_uint 16 (le_uint16 b0 b1).
Proof. apply le_uint16_range. Qed.

Lemma uint32_le b0 b1 b2 b3 : is_uint 32 (le_uint32 b0 b1 b2 b3).
Proof. apply le_uint32_range. Qed.

Lemma uint8_byte b : is_uint 8 (byte_to_Z b).
Proof. apply byte_to_Z_range. Qed.

Lemma uint16_lor_shl b1 b0 :
  is_uint 16 (Z.lor (shl_uint16 (byte_to_Z b1) 8) (byte_to_Z b0)).
Proof. rewrite lor_shl_uint16. apply uint16_le. Qed.

Lemma dec_bytes_length n d x rest :
  dec_bytes n d = Some (x, rest) → length x = n.
Proof.
  unfold dec_bytes. case_bool_decide; [done|]. intros [= <- _].
  rewrite length_take. lia.
Qed.

Ltac dec_inv H :=
  unfold mbind, decoder_bind, mret, decoder_ret, dec_int16, dec_int8,
    dec_uint8, dec_uint16, dec_uint32, mbind, decoder_bind, mret,
    decoder_ret in H;
  repeat match type of H with
         | context [dec_bytes ?n ?d] =>
             let E := fresh "Hname" in
             destruct (dec_bytes n d) as [[? ?]|] eqn:E; [|done];
             apply dec_bytes_length in E
         | context [match ?l with [] => _ | _ :: _ => _ end] =>
             destruct l; [done|]
         end;
  injection H as <- _.

Ltac typed :=
  repeat split;
  first [ done | apply uint16_le | apply uint32_le | apply uint8_byte
        | apply int16_range | apply int8_range | apply uint16_lor_shl ].

Lemma dec_PresetHeader_typed d x rest :
  dec_PresetHeader d = Some (x, rest) → PresetHeader_typed x.
Proof. unfold dec_PresetHeader. intros H. dec_inv H. typed. Qed.

Lemma dec_Modulator_typed d x rest :
  dec_Modulator d = Some (x, rest) → Modulator_typed x.
Proof. unfold dec_Modulator. intros H. dec_inv H. typed. Qed.

Lemma dec_Generator_typed d x rest :
  dec_Generator d = Some (x, rest) → Generator_typed x.
Proof. unfold dec_Generator. intros H. dec_inv H. typed. Qed.

Lemma dec_Instrument_typed d x rest :
  dec_Instrument d = Some (x, rest) → Instrument_typed x.
Proof. unfold dec_Instrument. intros H. dec_inv H. typed. Qed.

Lemma dec_SampleHeader_typed d x rest :
  dec_SampleHeader d = Some (x, rest) → SampleHeader_typed x.
Proof. unfold dec_SampleHeader. intros H. dec_inv H. typed. Qed.

Lemma pbag_record_typed data i x :
  pbag_record data i = inr x → PBag_typed x.
Proof.
  unfold pbag_record, index.
  repeat match goal with
         | |- context [data !! ?k] =>
             destruct (data !! k); [|done]; cbn [mbind result_bind]
         end.
  intros [= <-]. typed.
Qed.

Lemma ibag_record_typed data i x :
  ibag_record data i = inr x → IBag_typed x.
Proof.
  unfold ibag_record, index.
  repeat match goal with
         | |- context [data !! ?k] =>
             destruct (data !! k); [|done]; cbn [mbind result_bind]
         end.
  intros [= <-]. typed.
Qed.

Lemma hydra_switch_typed ck s s' :
  hydra_switch ck s = inr s' → hydra_typed s → hydra_typed s'.
Proof.
  unfold hydra_switch, hydra_typed.
  intros Hsw (H1 & H2 & H3 & H4 & H5 & H6 & H7 & H8 & H9).
  repeat (case_bool_decide as Hid;
    [ clear Hid; case_bool_decide; [done|];
      match type of Hsw with
      | context [read_records ?sz ?dec ?n ?r] =>
          destruct (read_records sz dec n r) as [|v] eqn:Hv; [done|]
      | context [fill ?n ?f] =>
          destruct (fill n f) as [|v] eqn:Hv; [done|]
      end;
      injection Hsw as <-; simpl;
      first [ apply (read_records_Forall _ _ _ _ _ _ dec_PresetHeader_typed) in Hv
            | apply (read_records_Forall _ _ _ _ _ _ dec_Modulator_typed) in Hv
            | apply (read_records_Forall _ _ _ _ _ _ dec_Generator_typed) in Hv
            | apply (read_records_Forall _ _ _ _ _ _ dec_Instrument_typed) in Hv
            | apply (read_records_Forall _ _ _ _ _ _ dec_SampleHeader_typed) in Hv
            | apply (fill_Forall _ _ _ _ (pbag_record_typed _)) in Hv
            | apply (fill_Forall _ _ _ _ (ibag_record_typed _)) in Hv ];
      done
    | clear Hid ]).
  by injection Hsw as <-.
Qed.

(** X16.  Every record of a decoded hydra is a value of its Go type: the
    three names have twenty bytes, every unsigned field is within the range
    of its width and the three signed fields (the two amounts and the pitch
    correction) within theirs. *)
Theorem hydra_records_typed order r h :
  ReadSoundFontHydra order r = inr h → hydra_typed h.
Proof.
  unfold ReadSoundFontHydra.
  destruct (chunk_loop _ _ _) as [|[s m]] eqn:Hloop; [done|].
  cbn [mbind result_bind]. destruct (first_missing _ _); [done|].
  intros [= <-].
  apply chunk_loop_inv in Hloop as (cs & tail & _ & _ & _ & Hrun).
  apply (run_chunks_invariant hydra_chunk (λ st, hydra_typed st.1) cs)
    in Hrun; [done| |by repeat split].
  intros ck [s1 m1] [s2 m2] Hck Hs1. simpl in *.
  unfold hydra_chunk in Hck. destruct (m1 !! id ck); [|by injection Hck as <-].
  destruct (hydra_switch ck s1) as [|s3] eqn:Hsw; [done|].
  injection Hck as <- _. by eapply hydra_switch_typed.
Qed.

Lemma hydra_records_typed_witness :
  ReadSoundFontHydra hydra_tags (frames (nine_empty ++ [pgen_chunk]))
  = inr (set_PresetGenerators [mkGenerator 513 (-253)] empty_hydra)
  ∧ hydra_typed (set_PresetGenerators [mkGenerator 513 (-253)] empty_hydra).
Proof.
  split; [reflexivity|].
  apply (hydra_records_typed hydra_tags (frames (nine_empty ++ [pgen_chunk]))).
  reflexivity.
Defined.

(** ** The info decoder *)

Lemma info_chunk_mark ck i m i' m' :
  info_chunk ck (i, m) = inr (i', m') → m' = mark m ck.
Proof.
  unfold info_chunk, mark. destruct (m !! id ck) as [[]|]; [done| |by intros [= _ <-]].
  destruct (info_switch ck i); simpl; [done|by intros [= _ <-]].
Qed.

Lemma info_keys_mark m ck : info_keys m → info_keys (mark m ck).
Proof.
  intros Hm t. rewrite mark_lookup. specialize (Hm t).
  destruct (m !! t); [|done]. rewrite <- Hm. split; eauto.
Qed.

Lemma run_info_keys cs i m i' m' :
  run_chunks info_chunk cs (i, m) = inr (i', m') → info_keys m → info_keys m'.
Proof.
  intros Hrun Hm.
  apply (run_chunks_invariant info_chunk (λ st, info_keys st.2) cs)
    in Hrun; [done| |done].
  intros ck [i1 m1] [i2 m2] Hck Hm1. simpl in *.
  apply info_chunk_mark in Hck as ->. by apply info_keys_mark.
Qed.

Lemma info_chunk_unknown ck i m :
  info_keys m → id ck ∉ info_tags → info_chunk ck (i, m) = inr (i, m).
Proof.
  intros Hm Hck. unfold info_chunk.
  destruct (m !! id ck) eqn:E; [|done]. destruct Hck. apply Hm. eauto.
Qed.

(** The list type and then the loop, on any tail. *)
Lemma ReadSoundFontInfo_tail cs tail e :
  Forall well_framed cs → parse tail = inl e →
  ReadSoundFontInfo (info_list cs tail) =
  '(info, m) ← run_chunks info_chunk cs (empty_info, infoChunks_init);
  if bool_decide (e = EOF) then
    if negb (map_get m tag_ifil) then inl (Errorf "ifil chunk is missing")
    else if negb (map_get m tag_isng) then inr (set_Engine "EMU8000" info)
    else inr info
  else inl e.
Proof.
  intros Hwf Htail. unfold ReadSoundFontInfo, info_list, Expect, tag_bytes.
  rewrite ReadFull_app.
  cbn [mbind result_bind negb bool_decide]. rewrite bool_decide_eq_true_2 by done.
  cbn [negb]. rewrite (chunk_loop_tail _ _ _ e) by done.
  destruct (run_chunks _ _ _) as [err|[info m]]; [done|].
  cbn [mbind result_bind]. by case_bool_decide.
Qed.

(** The loop fails at a repeated known tag when all sizes are accepted. *)
Lemma run_info_dup cs :
  Forall well_framed cs → Forall info_size_ok cs →
  ∀ info m, info_keys m →
    ¬ (NoDup (filter (.∈ info_tags) (id <$> cs))
       ∧ ∀ t, t ∈ id <$> cs → m !! t ≠ Some true) →
    ∃ t, t ∈ info_tags
         ∧ run_chunks info_chunk cs (info, m) = inl (ErrDuplicateChunk t).
Proof.
  induction 1 as [|ck cs Hwf _ IH]; intros Hsz info m Hkeys Hnot.
  { destruct Hnot. split; [constructor|]. by intros t ?%elem_of_nil. }
  apply Forall_cons in Hsz as [Hsz Hszs].
  destruct (decide (m !! id ck = Some true)) as [Htrue|Hfresh].
  { exists (id ck). split; [apply Hkeys; eauto|].
    rewrite run_chunks_cons. unfold info_chunk. by rewrite Htrue. }
  destruct (info_chunk_ok ck info m Hwf Hsz Hfresh) as [info1 Hinfo1].
  destruct (IH Hszs info1 (mark m ck) (info_keys_mark _ _ Hkeys))
    as (t & Ht & Hrun).
  - intros [Hnd Hfr]. apply Hnot. split.
    + rewrite fmap_cons, filter_cons. case_decide as Hin; [|done].
      apply NoDup_cons. split; [|done].
      intros [_ Hids]%list_elem_of_filter.
      apply (Hfr _ Hids). rewrite mark_lookup.
      destruct (proj2 (Hkeys (id ck)) Hin) as [b Hb]. rewrite Hb.
      by rewrite bool_decide_eq_true_2, orb_true_r.
    + intros t. rewrite fmap_cons. intros [->|Ht]%elem_of_cons; [done|].
      specialize (Hfr t Ht). rewrite mark_lookup in Hfr.
      destruct (m !! t) as [[]|]; done.
  - exists t. split; [done|]. by rewrite run_chunks_cons, Hinfo1.
Qed.

(** X17.  A known tag that comes twice in an INFO list makes the decode
    fail with the duplicate error for a known tag, when the sizes of the
    known chunks are accepted; what follows the list is not looked at. *)
Theorem info_duplicate_rejected cs tail :
  Forall well_framed cs → Forall info_size_ok cs →
  ¬ NoDup (filter (.∈ info_tags) (id <$> cs)) →
  ∃ t, t ∈ info_tags
       ∧ ReadSoundFontInfo (info_list cs tail) = inl (ErrDuplicateChunk t).
Proof.
  intros Hwf Hsz Hdup.
  destruct (run_info_dup cs Hwf Hsz empty_info infoChunks_init)
    as (t & Ht & Hrun).
  { intros t. apply infoChunks_keys. }
  { intros [Hnd _]. by apply Hdup. }
  exists t. split; [done|].
  destruct (chunk_split tail) as (cs' & tail' & e & -> & Hwf' & Htail).
  unfold info_list. rewrite (app_assoc (frames cs)), <- frames_app.
  change (ReadSoundFontInfo (info_list (cs ++ cs') tail') = inl (ErrDuplicateChunk t)).
  rewrite (ReadSoundFontInfo_tail _ _ e);
    [|by apply Forall_app|done].
  by rewrite run_chunks_app, Hrun.
Qed.

Lemma info_duplicate_rejected_witness :
  Forall well_framed INAM_twice
  ∧ Forall info_size_ok INAM_twice
  ∧ ¬ NoDup (filter (.∈ info_tags) (id <$> INAM_twice))
  ∧ ∃ t, t ∈ info_tags
         ∧ ReadSoundFontInfo (info_list INAM_twice [x00])
           = inl (ErrDuplicateChunk t).
Proof.
  split; [by_evaluation|]. split; [by_evaluation|]. split; [by_evaluation|].
  apply (info_duplicate_rejected INAM_twice [x00]); by_evaluation.
Defined.

(** X18.  A chunk whose tag is none of the eleven is skipped by the info
    decoder, whatever its length and wherever it stands. *)
Theorem info_unknown_chunk_skipped cs1 ck cs2 tail :
  Forall well_framed cs1 → well_framed ck → id ck ∉ info_tags →
  ReadSoundFontInfo (info_list (cs1 ++ ck :: cs2) tail)
  = ReadSoundFontInfo (info_list (cs1 ++ cs2) tail).
Proof.
  intros Hwf1 Hwf Hck. unfold ReadSoundFontInfo, info_list, Expect, tag_bytes.
  rewrite !ReadFull_app. cbn [mbind result_bind].
  rewrite bool_decide_eq_true_2 by done. cbn [negb].
  rewrite !frames_app, frames_cons, <- !app_assoc.
  rewrite !(chunk_loop_frames _ cs1) by done.
  destruct (run_chunks info_chunk cs1 _) as [err|[i m]] eqn:Hrun; [done|].
  cbn [mbind result_bind].
  rewrite chunk_loop_step, parse_frame by done.
  rewrite info_chunk_unknown; [done| |done].
  eapply run_info_keys; [done|]. intros t. apply infoChunks_keys.
Qed.

Lemma info_unknown_chunk_skipped_witness :
  Forall well_framed ifil_and_INAM
  ∧ well_framed junk_chunk
  ∧ (id junk_chunk ∉ info_tags)
  ∧ ReadSoundFontInfo (info_list (ifil_and_INAM ++ junk_chunk :: []) [])
    = ReadSoundFontInfo (info_list (ifil_and_INAM ++ []) []).
Proof.
  split; [by_evaluation|]. split; [by_evaluation|]. split; [by_evaluation|].
  apply (info_unknown_chunk_skipped ifil_and_INAM junk_chunk [] []);
    by_evaluation.
Defined.

(** X19.  The list type is checked first: four bytes other than INFO at
    the start make the decode fail with the error of the expected type,
    whatever follows. *)
Theorem info_list_type_checked b rest :
  length b = 4%nat → b ≠ tag_bytes type_INFO →
  ReadSoundFontInfo (b ++ rest) = inl (ErrExpected "INFO").
Proof.
  intros Hlen Hne. unfold ReadSoundFontInfo.
  unfold Expect. cbn [length]. rewrite <- Hlen, ReadFull_app.
  cbn [mbind result_bind].
  by rewrite bool_decide_eq_false_2.
Qed.

Lemma info_list_type_checked_witness :
  length (tag_bytes type_sdta) = 4%nat
  ∧ tag_bytes type_sdta ≠ tag_bytes type_INFO
  ∧ ReadSoundFontInfo (tag_bytes type_sdta ++ frames ifil_and_INAM)
    = inl (ErrExpected "INFO").
Proof.
  split; [reflexivity|]. split; [by_evaluation|].
  apply (info_list_type_checked (tag_bytes type_sdta) (frames ifil_and_INAM));
    [reflexivity|by_evaluation].
Defined.

(** X20.  A chunk cut inside its tag, its length or its payload is
    reported by the info decoder: after framed chunks that the loop
    accepts, a tail on which [parse] gives [io.ErrUnexpectedEOF] makes
    the decode fail with that error. *)
Theorem info_cut_chunk_reported cs tail :
  Forall well_framed cs → Forall info_size_ok cs →
  NoDup (filter (.∈ info_tags) (id <$> cs)) →
  parse tail = inl ErrUnexpectedEOF →
  ReadSoundFontInfo (info_list cs tail) = inl ErrUnexpectedEOF.
Proof.
  intros Hwf Hsz Hnd Htail.
  destruct (run_info_ok cs Hwf Hsz Hnd empty_info infoChunks_init)
    as [info Hrun].
  { apply infoChunks_keys. }
  { intros t _. rewrite infoChunks_init_lookup. by case_bool_decide. }
  by rewrite (ReadSoundFontInfo_tail _ _ ErrUnexpectedEOF), Hrun.
Qed.

Lemma info_cut_chunk_reported_witness :
  Forall well_framed ifil_and_INAM
  ∧ Forall info_size_ok ifil_and_INAM
  ∧ NoDup (filter (.∈ info_tags) (id <$> ifil_and_INAM))
  ∧ parse cut_chunk = inl ErrUnexpectedEOF
  ∧ ReadSoundFontInfo (info_list ifil_and_INAM cut_chunk)
    = inl ErrUnexpectedEOF.
Proof.
  split; [by_evaluation|]. split; [by_evaluation|]. split; [by_evaluation|].
  split; [reflexivity|].
  apply (info_cut_chunk_reported ifil_and_INAM cut_chunk);
    [by_evaluation|by_evaluation|by_evaluation|reflexivity].
Defined.

(** *** The fields of a decoded info *)

Lemma version_of_at d v : version_of d = inr v → v = version_at d.
Proof.
  unfold version_of, index, version_at.
  destruct (d !! 1%nat) as [b1|] eqn:E1; [|done]. cbn [mbind result_bind].
  destruct (d !! 0%nat) as [b0|] eqn:E0; [|done]. cbn [mbind result_bind].
  destruct (d !! 3%nat) as [b3|] eqn:E3; [|done]. cbn [mbind result_bind].
  destruct (d !! 2%nat) as [b2|] eqn:E2; [|done]. cbn [mbind result_bind].
  intros [= <-]. rewrite !lor_shl_uint16.
  by rewrite (list_lookup_total_correct _ _ _ E0),
    (list_lookup_total_correct _ _ _ E1),
    (list_lookup_total_correct _ _ _ E2),
    (list_lookup_total_correct _ _ _ E3).
Qed.

Ltac field_cases :=
  unfold info_field; repeat case_decide; subst; done.

Lemma info_field_set_SfVersion t v i :
  info_field t (set_SfVersion v i) =
  if decide (t = tag_ifil) then Some (inl v) else info_field t i.
Proof. field_cases. Qed.
Lemma info_field_set_Engine t v i :
  info_field t (set_Engine v i) =
  if decide (t = tag_isng) then Some (inr v) else info_field t i.
Proof. field_cases. Qed.
Lemma info_field_set_Name t v i :
  info_field t (set_Name v i) =
  if decide (t = tag_INAM) then Some (inr v) else info_field t i.
Proof. field_cases. Qed.
Lemma info_field_set_ROM t v i :
  info_field t (set_ROM v i) =
  if decide (t = tag_irom) then Some (inr v) else info_field t i.
Proof. field_cases. Qed.
Lemma info_field_set_ROMVer t v i :
  info_field t (set_ROMVer v i) =
  if decide (t = tag_iver) then Some (inl v) else info_field t i.
Proof. field_cases. Qed.
Lemma info_field_set_CreationDate t v i :
  info_field t (set_CreationDate v i) =
  if decide (t = tag_ICRD) then Some (inr v) else info_field t i.
Proof. field_cases. Qed.
Lemma info_field_set_Engineers t v i :
  info_field t (set_Engineers v i) =
  if decide (t = tag_IENG) then Some (inr v) else info_field t i.
Proof. field_cases. Qed.
Lemma info_field_set_Product t v i :
  info_field t (set_Product v i) =
  if decide (t = tag_IPRD) then Some (inr v) else info_field t i.
Proof. field_cases. Qed.
Lemma info_field_set_Copyright t v i :
  info_field t (set_Copyright v i) =
  if decide (t = tag_ICOP) then Some (inr v) else info_field t i.
Proof. field_cases. Qed.
Lemma info_field_set_Comments t v i :
  info_field t (set_Comments v i) =
  if decide (t = tag_ICMT) then Some (inr v) else info_field t i.
Proof. field_cases. Qed.
Lemma info_field_set_Software t v i :
  info_field t (set_Software v i) =
  if decide (t = tag_ISFT) then Some (inr v) else info_field t i.
Proof. field_cases. Qed.

Ltac text_branch Hid Hsw setlem :=
  injection Hsw as <-; rewrite setlem, Hid;
  unfold chunk_field; rewrite Hid;
  rewrite (decide_False (P := _ ∨ _)) by (intros [?|?]; done);
  repeat case_decide; congruence.

Ltac version_branch Hid Hsw setlem :=
  let v := fresh "v" in
  let Hv := fresh "Hv" in
  destruct (version_of _) as [|v] eqn:Hv; [done|];
  apply version_of_at in Hv as ->;
  injection Hsw as <-; rewrite setlem, Hid;
  unfold chunk_field; rewrite Hid;
  rewrite (decide_True (P := _ ∨ _)) by (first [by left|by right]);
  repeat case_decide; congruence.

Lemma info_switch_field ck info info' t :
  info_switch ck info = inr info' → t ∈ info_tags →
  info_field t info' =
  if decide (id ck = t) then Some (chunk_field ck) else info_field t info.
Proof.
  intros Hsw Ht. unfold info_switch in Hsw.
  case_bool_decide as H1.
  { case_bool_decide; [done|]. version_branch H1 Hsw info_field_set_SfVersion. }
  case_bool_decide as H2.
  { case_bool_decide; [done|]. text_branch H2 Hsw info_field_set_Engine. }
  case_bool_decide as H3.
  { case_bool_decide; [done|]. text_branch H3 Hsw info_field_set_Name. }
  case_bool_decide as H4.
  { case_bool_decide; [done|]. text_branch H4 Hsw info_field_set_ROM. }
  case_bool_decide as H5.
  { case_bool_decide; [done|]. version_branch H5 Hsw info_field_set_ROMVer. }
  case_bool_decide as H6.
  { case_bool_decide; [done|]. text_branch H6 Hsw info_field_set_CreationDate. }
  case_bool_decide as H7.
  { case_bool_decide; [done|]. text_branch H7 Hsw info_field_set_Engineers. }
  case_bool_decide as H8.
  { case_bool_decide; [done|]. text_branch H8 Hsw info_field_set_Product. }
  case_bool_decide as H9.
  { case_bool_decide; [done|]. text_branch H9 Hsw info_field_set_Copyright. }
  case_bool_decide as H10.
  { case_bool_decide; [done|]. text_branch H10 Hsw info_field_set_Comments. }
  case_bool_decide as H11.
  { case_bool_decide; [done|]. text_branch H11 Hsw info_field_set_Software. }
  injection Hsw as <-. rewrite decide_False; [done|].
  intros <-. unfold info_tags in Ht.
  repeat (apply elem_of_cons in Ht as [?|Ht]; [done|]).
  by apply elem_of_nil in Ht.
Qed.

Lemma info_chunk_field ck i m i' m' t :
  info_chunk ck (i, m) = inr (i', m') → info_keys m → t ∈ info_tags →
  info_field t i' =
  if decide (id ck = t) then Some (chunk_field ck) else info_field t i.
Proof.
  intros Hck Hm Ht. unfold info_chunk in Hck.
  destruct (m !! id ck) as [[]|] eqn:E; [done| |].
  - destruct (info_switch ck i) as [|i1] eqn:Hsw; [done|].
    injection Hck as <- _. by apply info_switch_field.
  - injection Hck as <- _. rewrite decide_False; [done|].
    intros <-. apply Hm in Ht as [? ?]. congruence.
Qed.

Lemma run_info_fields cs t :
  t ∈ info_tags →
  ∀ i m i' m', run_chunks info_chunk cs (i, m) = inr (i', m') → info_keys m →
  m' = foldl mark m cs
  ∧ info_field t i' =
    match last_with t cs with
    | Some ck => Some (chunk_field ck)
    | None => info_field t i
    end.
Proof.
  intros Ht. induction cs as [|ck cs IH]; intros i m i' m'.
  { by intros [= <- <-]. }
  rewrite run_chunks_cons.
  destruct (info_chunk ck (i, m)) as [|[i1 m1]] eqn:Hck; [done|].
  cbn [mbind result_bind]. intros Hrun Hm.
  pose proof (info_chunk_field _ _ _ _ _ t Hck Hm Ht) as Hfield.
  apply info_chunk_mark in Hck as ->.
  destruct (IH _ _ _ _ Hrun (info_keys_mark _ _ Hm)) as [-> Hrest].
  split; [done|]. rewrite Hrest, last_with_cons.
  destruct (last_with t cs); [done|]. rewrite Hfield. by case_decide.
Qed.

Lemma info_field_empty t :
  t ∈ info_tags → t ≠ tag_isng →
  info_field t empty_info = Some (info_default t).
Proof.
  intros Ht Hne. unfold info_tags in Ht.
  repeat (apply elem_of_cons in Ht as [->|Ht]; [done|]).
  by apply elem_of_nil in Ht.
Qed.

(** X21.  The fields of a decoded info come from the chunks verbatim: the
    field of each of the eleven tags holds the content of the chunk of that
    tag (the payload as text, or for the two version tags the two
    little-endian 16-bit numbers of the payload), and without such a chunk
    its default: EMU8000 for the engine, the empty text or the zero
    version otherwise. *)
Theorem info_fields_from_chunks cs tail info t :
  Forall well_framed cs → parse tail = inl EOF →
  ReadSoundFontInfo (info_list cs tail) = inr info → t ∈ info_tags →
  info_field t info =
  Some (match last_with t cs with
        | Some ck => chunk_field ck
        | None => info_default t
        end).
Proof.
  intros Hwf Htail Hok Ht. rewrite ReadSoundFontInfo_frames in Hok by done.
  destruct (run_chunks _ _ _) as [|[i m]] eqn:Hrun; [done|].
  cbn [mbind result_bind] in Hok.
  assert (info_keys infoChunks_init) as Hkeys
    by (intros ?; apply infoChunks_keys).
  destruct (run_info_fields cs t Ht _ _ _ _ Hrun Hkeys) as [-> Hfield].
  rewrite !info_seen in Hok by by_evaluation.
  destruct (bool_decide (tag_ifil ∈ id <$> cs)); [|done]. cbn [negb] in Hok.
  case_bool_decide as Hisng; cbn [negb] in Hok; injection Hok as <-.
  - rewrite Hfield. destruct (last_with t cs) eqn:Hlast; [done|].
    apply info_field_empty; [done|]. intros ->.
    by apply last_with_None in Hlast.
  - rewrite info_field_set_Engine. case_decide as Heq.
    + subst t. apply last_with_None in Hisng. by rewrite Hisng.
    + rewrite Hfield. destruct (last_with t cs); [done|].
      by apply info_field_empty.
Qed.

Lemma info_fields_from_chunks_witness :
  Forall well_framed ifil_and_INAM
  ∧ parse [] = inl EOF
  ∧ ReadSoundFontInfo (info_list ifil_and_INAM [])
    = inr (set_Engine "EMU8000"
             (set_Name (string_of [x42; x61; x6e; x6b; x00; x00])
                (set_SfVersion (mkVersion 2 1) empty_info)))
  ∧ tag_ifil ∈ info_tags
  ∧ info_field tag_ifil
      (set_Engine "EMU8000"
         (set_Name (string_of [x42; x61; x6e; x6b; x00; x00])
            (set_SfVersion (mkVersion 2 1) empty_info)))
    = Some (match last_with tag_ifil ifil_and_INAM with
            | Some ck => chunk_field ck
            | None => info_default tag_ifil
            end).
Proof.
  split; [by_evaluation|]. split; [reflexivity|]. split; [reflexivity|].
  split; [by_evaluation|].
  apply (info_fields_from_chunks ifil_and_INAM []);
    [by_evaluation|reflexivity|reflexivity|by_evaluation].
Defined.

(** *** Sizes and failures *)

Ltac absurd_by_evaluation Hp :=
  exfalso; revert Hp;
  match goal with |- ?P → False => change (¬ P); by_evaluation end.

Ltac size_ok_known Hid :=
  unfold info_size_ok; rewrite Hid;
  split; [|split]; intros Hp;
  first [ lia | done | absurd_by_evaluation Hp ].

Lemma info_switch_accepts ck i i' :
  info_switch ck i = inr i' → info_size_ok ck.
Proof.
  unfold info_switch.
  repeat (let Hid := fresh "Hid" in
          case_bool_decide as Hid;
          [ case_bool_decide as Hsz; [done|]; intros _; size_ok_known Hid
          | ]).
  intros _. unfold info_size_ok. split; [|split]; intros Hp; try done.
  all: repeat (apply elem_of_cons in Hp as [?|Hp]; [done|]).
  all: by apply elem_of_nil in Hp.
Qed.

Lemma info_switch_error ck i e :
  size ck = Z.of_nat (length (data ck)) → info_switch ck i = inl e →
  ∃ msg, e = Errorf msg ∧ msg ≠ "ifil chunk is missing"%string.
Proof.
  intros Hlen. unfold info_switch.
  repeat (let Hid := fresh "Hid" in
          case_bool_decide as Hid;
          [ case_bool_decide as Hsz;
            [ intros [= <-]; eexists; split; [reflexivity|done]
            | try (destruct (version_of_ok (data ck)) as [v ->]; [lia|]);
              done ]
          | ]).
  done.
Qed.

Lemma info_switch_rejects ck i :
  well_framed ck → ¬ info_size_ok ck →
  ∃ msg, info_switch ck i = inl (Errorf msg)
         ∧ msg ≠ "ifil chunk is missing"%string.
Proof.
  intros [Hlen _] Hbad. destruct (info_switch ck i) as [e|i'] eqn:Hsw.
  - destruct (info_switch_error _ _ _ Hlen Hsw) as (msg & -> & Hmsg). eauto.
  - destruct Hbad. by eapply info_switch_accepts.
Qed.

Lemma info_size_ok_unknown ck : id ck ∉ info_tags → info_size_ok ck.
Proof.
  intros Hck. unfold info_size_ok.
  split; [|split]; intros Hp; destruct Hck; unfold info_tags.
  - repeat (apply elem_of_cons in Hp as [->|Hp]; [by_evaluation|]).
    by apply elem_of_nil in Hp.
  - rewrite Hp. by_evaluation.
  - repeat (apply elem_of_cons in Hp as [->|Hp]; [by_evaluation|]).
    by apply elem_of_nil in Hp.
Qed.

Lemma info_step_conditions ck cs m :
  info_keys m →
  NoDup (filter (.∈ info_tags) (id <$> ck :: cs)) →
  (∀ t, t ∈ id <$> ck :: cs → m !! t ≠ Some true) →
  NoDup (filter (.∈ info_tags) (id <$> cs))
  ∧ ∀ t, t ∈ id <$> cs → mark m ck !! t ≠ Some true.
Proof.
  intros Hkeys Hnd Hfresh. rewrite fmap_cons, filter_cons in Hnd. split.
  - destruct (decide (id ck ∈ info_tags)); [by apply NoDup_cons in Hnd as [_ ?]|done].
  - intros t Ht. rewrite mark_lookup.
    pose proof (Hfresh t ltac:(rewrite fmap_cons; by right)) as Hmt.
    destruct (m !! t) as [[]|] eqn:Et; [done| |done].
    intros [= Hb]. apply bool_decide_eq_true_1 in Hb.
    assert (t ∈ info_tags) as Hin by (apply Hkeys; eauto).
    rewrite Hb, decide_True in Hnd by done.
    apply NoDup_cons in Hnd as [Hnot _]. apply Hnot.
    by apply list_elem_of_filter.
Qed.

Lemma run_info_bad_size cs :
  Forall well_framed cs →
  ∀ i m, info_keys m →
    NoDup (filter (.∈ info_tags) (id <$> cs)) →
    (∀ t, t ∈ id <$> cs → m !! t ≠ Some true) →
    ¬ Forall info_size_ok cs →
    ∃ msg, run_chunks info_chunk cs (i, m) = inl (Errorf msg)
           ∧ msg ≠ "ifil chunk is missing"%string.
Proof.
  induction 1 as [|ck cs Hwf _ IH]; intros i m Hkeys Hnd Hfresh Hbad.
  { destruct Hbad. constructor. }
  destruct (info_step_conditions ck cs m Hkeys Hnd Hfresh) as [Hnd' Hfresh'].
  assert (m !! id ck ≠ Some true) as Hck
    by (apply Hfresh; rewrite fmap_cons; by left).
  rewrite run_chunks_cons.
  destruct (decide (info_size_ok ck)) as [Hok|Hno].
  - destruct (info_chunk_ok ck i m Hwf Hok Hck) as [i1 ->].
    cbn [mbind result_bind].
    apply IH; [by apply info_keys_mark|done|done|].
    intros Hall. apply Hbad. by constructor.
  - assert (id ck ∈ info_tags) as Hin.
    { destruct (decide (id ck ∈ info_tags)); [done|].
      destruct Hno. by apply info_size_ok_unknown. }
    destruct (proj2 (Hkeys _) Hin) as [[] Hb]; [done|].
    destruct (info_switch_rejects ck i Hwf Hno) as (msg & Hmsg & Hne).
    exists msg. split; [|done]. unfold info_chunk. by rewrite Hb, Hmsg.
Qed.

(** X22.  The size limits of the info decoder: in an INFO list without a
    repeated known tag, a version chunk of a length other than four, a
    comment chunk longer than 65536 bytes, or another known chunk longer
    than 256 bytes makes the decode fail with a size message (not the
    message of the missing ifil), whatever follows the list. *)
Theorem info_size_limit_enforced cs tail :
  Forall well_framed cs →
  NoDup (filter (.∈ info_tags) (id <$> cs)) →
  ¬ Forall info_size_ok cs →
  ∃ msg, ReadSoundFontInfo (info_list cs tail) = inl (Errorf msg)
         ∧ msg ≠ "ifil chunk is missing"%string.
Proof.
  intros Hwf Hnd Hbad.
  destruct (run_info_bad_size cs Hwf empty_info infoChunks_init)
    as (msg & Hrun & Hmsg); try done.
  { intros t. apply infoChunks_keys. }
  { intros t _. rewrite infoChunks_init_lookup. by case_bool_decide. }
  exists msg. split; [|done].
  destruct (chunk_split tail) as (cs' & tail' & e & -> & Hwf' & Htail).
  unfold info_list. rewrite (app_assoc (frames cs)), <- frames_app.
  change (ReadSoundFontInfo (info_list (cs ++ cs') tail') = inl (Errorf msg)).
  rewrite (ReadSoundFontInfo_tail _ _ e); [|by apply Forall_app|done].
  by rewrite run_chunks_app, Hrun.
Qed.

Lemma info_size_limit_enforced_witness :
  Forall well_framed [chunk_of tag_ifil [x02; x00; x01]]
  ∧ NoDup (filter (.∈ info_tags) (id <$> [chunk_of tag_ifil [x02; x00; x01]]))
  ∧ ¬ Forall info_size_ok [chunk_of tag_ifil [x02; x00; x01]]
  ∧ ∃ msg, ReadSoundFontInfo
             (info_list [chunk_of tag_ifil [x02; x00; x01]] [x00])
           = inl (Errorf msg)
           ∧ msg ≠ "ifil chunk is missing"%string.
Proof.
  split; [by_evaluation|]. split; [by_evaluation|]. split; [by_evaluation|].
  apply (info_size_limit_enforced [chunk_of tag_ifil [x02; x00; x01]] [x00]);
    by_evaluation.
Defined.

Lemma run_info_error cs :
  Forall well_framed cs →
  ∀ i m e, info_keys m → run_chunks info_chunk cs (i, m) = inl e →
  (∃ t, e = ErrDuplicateChunk t ∧ t ∈ info_tags) ∨ (∃ msg, e = Errorf msg).
Proof.
  induction 1 as [|ck cs [Hlen _] _ IH]; intros i m e Hkeys; [done|].
  rewrite run_chunks_cons.
  destruct (info_chunk ck (i, m)) as [e1|[i1 m1]] eqn:Hck.
  - cbn [mbind result_bind]. intros [= <-]. unfold info_chunk in Hck.
    destruct (m !! id ck) as [[]|] eqn:E; [| |done].
    + injection Hck as <-. left. exists (id ck). split; [done|].
      apply Hkeys. eauto.
    + destruct (info_switch ck i) as [e2|] eqn:Hsw; [|done].
      injection Hck as <-.
      destruct (info_switch_error _ _ _ Hlen Hsw) as (msg & -> & _). eauto.
  - cbn [mbind result_bind]. apply info_chunk_mark in Hck as ->.
    apply IH. by apply info_keys_mark.
Qed.

(** X23.  The info decoder fails in five ways only: with the plain
    [io.EOF] on the empty input, with [io.ErrUnexpectedEOF] for a list type
    or a chunk cut short, with the error of the expected list type, with
    the duplicate error of a known tag, or with one of its fixed messages.
    It never panics on an index. *)
Theorem info_failure_kinds r e :
  ReadSoundFontInfo r = inl e →
  (e = EOF ∧ r = [])
  ∨ e = ErrUnexpectedEOF
  ∨ e = ErrExpected "INFO"
  ∨ (∃ t, e = ErrDuplicateChunk t ∧ t ∈ info_tags)
  ∨ (∃ msg, e = Errorf msg).
Proof.
  unfold ReadSoundFontInfo, Expect, ReadFull. cbn [length].
  case_bool_decide as Hnil; [intros [= <-]; eauto|].
  case_bool_decide; [intros [= <-]; eauto|]. cbn [mbind result_bind].
  case_bool_decide; cbn [negb]; [|intros [= <-]; eauto].
  destruct (chunk_split (drop 4 r)) as (cs & tail & e' & -> & Hwf & Htail).
  rewrite (chunk_loop_tail _ _ _ e') by done.
  destruct (run_chunks _ _ _) as [e1|[i m]] eqn:Hrun.
  - cbn [mbind result_bind]. intros [= <-].
    apply run_info_error in Hrun; [|done|intros t; apply infoChunks_keys].
    destruct Hrun as [?|?]; eauto 6.
  - cbn [mbind result_bind]. case_bool_decide.
    + simpl mbind.
      destruct (negb (map_get m tag_ifil)); [intros [= <-]; eauto 6|].
      by destruct (negb (map_get m tag_isng)).
    + destruct (parse_error _ _ Htail) as [->| ->]; [done|].
      intros [= <-]. eauto.
Qed.

Lemma info_failure_kinds_witness :
  ReadSoundFontInfo (info_list INAM_twice [])
  = inl (ErrDuplicateChunk tag_INAM)
  ∧ ((ErrDuplicateChunk tag_INAM = EOF ∧ info_list INAM_twice [] = [])
     ∨ ErrDuplicateChunk tag_INAM = ErrUnexpectedEOF
     ∨ ErrDuplicateChunk tag_INAM = ErrExpected "INFO"
     ∨ (∃ t, ErrDuplicateChunk tag_INAM = ErrDuplicateChunk t ∧ t ∈ info_tags)
     ∨ (∃ msg, ErrDuplicateChunk tag_INAM = Errorf msg)).
Proof.
  split; [reflexivity|].
  apply (info_failure_kinds (info_list INAM_twice [])). reflexivity.
Defined.

(** ** The bank *)

(** [expect] on a chunk made of a tag and a payload, asked for that tag. *)
Lemma expect_chunk_of t d rest :
  Z.of_nat (length d) < 2 ^ 32 →
  expect (frame (chunk_of t d) ++ rest) t = inr (chunk_of t d, rest).
Proof.
  intros Hd. apply (expect_frame (chunk_of t d) rest).
  by apply chunk_of_well_framed.
Qed.

(** [Expect] on the four bytes of a tag compares the tags. *)
Lemma Expect_tag t want rest :
  Expect (tag_bytes t ++ rest) (tag_bytes want)
  = inr (bool_decide (t = want), rest).
Proof.
  destruct t as [[[a b] c] d], want as [[[a' b'] c'] d'].
  unfold Expect. cbn [tag_bytes length].
  change 4%nat with (length [a; b; c; d]). rewrite ReadFull_app.
  cbn [mbind result_bind]. do 2 f_equal.
  apply bool_decide_ext. split; intros [= -> -> -> ->]; done.
Qed.

Lemma riff_body_length ip t2 sb t3 hb extra :
  length (riff_body ip t2 sb t3 hb extra)
  = (4 + (8 + length ip) + (12 + length sb) + (12 + length hb)
     + length extra)%nat.
Proof.
  unfold riff_body. rewrite !length_app, !frame_length.
  cbn [chunk_of data]. rewrite !length_app.
  destruct t2 as [[[? ?] ?] ?], t3 as [[[? ?] ?] ?]. simpl. lia.
Qed.

(** X24.  [ReadSoundFont] on a RIFF container of three lists is the three
    list decoders one after the other, each on the payload of its own list:
    the info decoder on the whole first payload, then the check of the
    second list type and the sample decoder, then the check of the third
    list type and the hydra decoder.  What the RIFF chunk holds after the
    third list, and what follows the RIFF chunk, is never read. *)
Theorem ReadSoundFont_composes order ip t2 sb t3 hb extra after :
  riff_fits ip sb hb extra →
  Bank.ReadSoundFont order (riff_file ip t2 sb t3 hb extra after) =
  info ← ReadSoundFontInfo ip;
  if bool_decide (t2 = type_sdta) then
    sound ← ReadSoundFontSamples sb;
    if bool_decide (t3 = type_pdta) then
      hydra ← ReadSoundFontHydra order hb;
      inr (Bank.mkSoundFont info sound hydra)
    else inl (Errorf "expected pdta")
  else inl (Errorf "expected sdta").
Proof.
  intros (Hip & Hsb & Hhb & Hall).
  unfold Bank.ReadSoundFont, riff_file.
  rewrite expect_chunk_of by (by rewrite riff_body_length).
  cbn [mbind result_bind newReader chunk_of data]. unfold riff_body.
  change [("s")%byte; ("f")%byte; ("b")%byte; ("k")%byte]
    with (tag_bytes type_sfbk).
  rewrite Expect_tag, bool_decide_eq_true_2 by done.
  cbn [mbind result_bind negb].
  rewrite expect_chunk_of by done.
  cbn [mbind result_bind newReader chunk_of data].
  destruct (ReadSoundFontInfo ip) as [e|info]; [done|].
  cbn [mbind result_bind].
  rewrite expect_chunk_of
    by (rewrite length_app; destruct t2 as [[[? ?] ?] ?]; simpl in *; lia).
  cbn [mbind result_bind newReader chunk_of data].
  change [("s")%byte; ("d")%byte; ("t")%byte; ("a")%byte]
    with (tag_bytes type_sdta).
  rewrite Expect_tag. cbn [mbind result_bind].
  destruct (bool_decide (t2 = type_sdta)); cbn [negb]; [|done].
  destruct (ReadSoundFontSamples sb) as [e|sound]; [done|].
  cbn [mbind result_bind].
  rewrite expect_chunk_of
    by (rewrite length_app; destruct t3 as [[[? ?] ?] ?]; simpl in *; lia).
  cbn [mbind result_bind newReader chunk_of data].
  change [("p")%byte; ("d")%byte; ("t")%byte; ("a")%byte]
    with (tag_bytes type_pdta).
  rewrite Expect_tag. cbn [mbind result_bind].
  by destruct (bool_decide (t3 = type_pdta)).
Qed.

Lemma ReadSoundFont_composes_witness :
  riff_fits small_info small_samples small_hydra [x07]
  ∧ Bank.ReadSoundFont hydra_tags
      (riff_file small_info type_sdta small_samples type_pdta small_hydra
         [x07] [x08; x09])
    = (info ← ReadSoundFontInfo small_info;
       if bool_decide (type_sdta = type_sdta) then
         sound ← ReadSoundFontSamples small_samples;
         if bool_decide (type_pdta = type_pdta) then
           hydra ← ReadSoundFontHydra hydra_tags small_hydra;
           inr (Bank.mkSoundFont info sound hydra)
         else inl (Errorf "expected pdta")
       else inl (Errorf "expected sdta")).
Proof.
  split; [by_evaluation|].
  apply (ReadSoundFont_composes hydra_tags small_info type_sdta small_samples
           type_pdta small_hydra [x07] [x08; x09]).
  by_evaluation.
Defined.

(** X25.  A file whose first chunk is not a RIFF chunk is refused with the
    error that names the tag found, whatever the chunk holds. *)
Theorem ReadSoundFont_wants_RIFF order ck after :
  well_framed ck → id ck ≠ Bank.tag_RIFF →
  Bank.ReadSoundFont order (frame ck ++ after)
  = inl (ErrChunkId Bank.tag_RIFF (id ck)).
Proof.
  intros Hwf Hid. unfold Bank.ReadSoundFont, expect.
  rewrite parse_frame by done. cbn [mbind result_bind].
  by rewrite bool_decide_eq_true_2.
Qed.

Lemma ReadSoundFont_wants_RIFF_witness :
  well_framed pgen_chunk ∧ id pgen_chunk ≠ Bank.tag_RIFF
  ∧ Bank.ReadSoundFont hydra_tags (frame pgen_chunk ++ [])
    = inl (ErrChunkId Bank.tag_RIFF (id pgen_chunk)).
Proof.
  split; [by_evaluation|]. split; [by_evaluation|].
  apply (ReadSoundFont_wants_RIFF hydra_tags pgen_chunk []); by_evaluation.
Defined.

(** X26.  A RIFF chunk whose form type is not sfbk is refused with the
    message of the form type, before any list is looked at; a RIFF chunk
    too short to hold a form type is refused with the end-of-input error
    of the read, [EOF] when it is empty. *)
Theorem ReadSoundFont_wants_sfbk order body after :
  Z.of_nat (length body) < 2 ^ 32 →
  take 4 body ≠ tag_bytes type_sfbk →
  Bank.ReadSoundFont order (frame (chunk_of Bank.tag_RIFF body) ++ after)
  = inl (if decide (body = []) then EOF
         else if decide (length body < 4)%nat then ErrUnexpectedEOF
         else Errorf "expected sfbk").
Proof.
  intros Hlen Hform. unfold Bank.ReadSoundFont.
  rewrite expect_chunk_of by done.
  cbn [mbind result_bind newReader chunk_of data].
  unfold Expect, ReadFull. cbn [length].
  case_decide; [by rewrite bool_decide_eq_true_2|].
  rewrite bool_decide_eq_false_2 by done.
  case_decide; [by rewrite bool_decide_eq_true_2|].
  rewrite bool_decide_eq_false_2 by done.
  cbn [mbind result_bind]. by rewrite bool_decide_eq_false_2.
Qed.

Lemma ReadSoundFont_wants_sfbk_witness :
  Z.of_nat (length (tag_bytes type_sdta ++ [x01])) < 2 ^ 32
  ∧ take 4 (tag_bytes type_sdta ++ [x01]) ≠ tag_bytes type_sfbk
  ∧ Bank.ReadSoundFont hydra_tags
      (frame (chunk_of Bank.tag_RIFF (tag_bytes type_sdta ++ [x01])) ++ [])
    = inl (Errorf "expected sfbk").
Proof.
  split; [by_evaluation|]. split; [by_evaluation|].
  apply (ReadSoundFont_wants_sfbk hydra_tags (tag_bytes type_sdta ++ [x01])
           []); by_evaluation.
Defined.

(** ** The name of a sample type *)

(** Checked on each of the 65536 values. *)
Lemma type_of_name_table :
  forallb (λ h, forallb (λ l,
    type_of_name (SfSampleType.String (256 * h + l)) =? 256 * h + l)
    below_256) below_256 = true.
Proof. vm_compute. reflexivity. Qed.

Lemma below_256_complete v : 0 ≤ v < 256 → In v below_256.
Proof.
  intros Hv. apply list_elem_of_In, list_elem_of_fmap.
  exists (Z.to_nat v). split; [lia|]. apply elem_of_seq. lia.
Qed.

Lemma type_of_name_String s :
  is_uint 16 s → type_of_name (SfSampleType.String s) = s.
Proof.
  unfold is_uint. intros Hs. change (2 ^ 16) with 65536 in Hs.
  assert (0 ≤ s / 256 < 256) as Hh
    by (Z.to_euclidean_division_equations; lia).
  assert (0 ≤ s mod 256 < 256) as Hl
    by (Z.to_euclidean_division_equations; lia).
  pose proof type_of_name_table as Ht.
  rewrite forallb_forall in Ht.
  specialize (Ht _ (below_256_complete _ Hh)).
  rewrite forallb_forall in Ht.
  specialize (Ht _ (below_256_complete _ Hl)).
  apply Z.eqb_eq in Ht. by rewrite <- Z.div_mod in Ht by lia.
Qed.

(** X27.  The name of a sample type tells the type: two different 16-bit
    values never print as the same text, be they among the eight named
    types or not. *)
Theorem SfSampleType_String_injective s s' :
  is_uint 16 s → is_uint 16 s' →
  SfSampleType.String s = SfSampleType.String s' → s = s'.
Proof.
  intros Hs Hs' Heq.
  rewrite <- (type_of_name_String s), <- (type_of_name_String s') by done.
  by rewrite Heq.
Qed.

Lemma SfSampleType_String_injective_witness :
  is_uint 16 0x8001 ∧ is_uint 16 (0x8000 + 1)
  ∧ SfSampleType.String 0x8001 = SfSampleType.String (0x8000 + 1)
  ∧ 0x8001 = 0x8000 + 1.
Proof.
  split; [by_evaluation|]. split; [by_evaluation|]. split; [reflexivity|].
  apply (SfSampleType_String_injective 0x8001 (0x8000 + 1));
    [by_evaluation|by_evaluation|reflexivity].
Defined.
